(** * A broadcast hub over WebSocket connections (matchingapp/main.go)

    Shallow embedding of the coordinator [Hub.run], of the per-connection
    [readPump] and [writePump], and of [serveWs], together with the Go
    channel operations they are written with.

    - A [*Client] is an address ([positive]); the map [h.clients] is a
      [gmap] from addresses to [bool]; the channel [client.send] of every
      client lives in a store keyed by the client's address.
    - A Go run-time panic (close of a closed channel, send on a closed
      channel) is an explicit outcome.
    - Every function returns, next to its result, the list of the
      operations it performed (its effects), one constructor per source
      statement that touches shared state. *)

From Stdlib Require Import ZArith List Bool Lia.
From stdpp Require Import gmap list.

Import ListNotations.
#[local] Open Scope Z_scope.

(** ** Basic data *)

Abbreviation Client := positive.

(** A message is a []byte. *)
Abbreviation msg := (list Byte.byte).

(** Outcome of a computation that may hit a Go run-time panic. *)
Inductive panic :=
| CloseOfClosedChannel
| CloseOfNilChannel
| SendOnClosedChannel.

Inductive outcome (A : Type) :=
| Ok (a : A)
| Panic (p : panic).
Arguments Ok {A} a.
Arguments Panic {A} p.

(** ** Go channels

    A buffered channel of messages, as serveWs makes it (a positive
    capacity): the pending items (oldest first), the capacity fixed by
    [make], and whether [close] was called. *)
Module Chan.

Record t := mk { buf : list msg; cap : nat; closed : bool }.

(** make(chan []byte, n) *)
Definition make (n : nat) : t := {| buf := []; cap := n; closed := false |}.

(** len(ch) *)
Definition len (ch : t) : nat := length (buf ch).

Definition full (ch : t) : bool := (cap ch <=? len ch)%nat.

(** The send case of a [select] that has a [default] case. *)
Inductive send_result :=
| Sent (ch' : t)
| WouldBlock
| SendPanics.

Definition try_send (ch : t) (m : msg) : send_result :=
  if closed ch then SendPanics
  else if full ch then WouldBlock
  else Sent {| buf := buf ch ++ [m]; cap := cap ch; closed := false |}.

(** close(ch) *)
Definition close (ch : t) : outcome t :=
  if closed ch then Panic CloseOfClosedChannel
  else Ok {| buf := buf ch; cap := cap ch; closed := true |}.

(** v, ok := <-ch.  Buffered items are delivered before the closure is
    observed; an empty open channel makes the receiver wait. *)
Inductive recv_result :=
| Received (m : msg) (ch' : t)
| RecvClosed
| RecvWaits.

Definition recv (ch : t) : recv_result :=
  match buf ch with
  | m :: rest => Received m {| buf := rest; cap := cap ch; closed := closed ch |}
  | [] => if closed ch then RecvClosed else RecvWaits
  end.

End Chan.

(** ** Effects: the operations on shared state, one per source statement *)

Inductive MessageType := TextMessage | CloseMessage | PingMessage.

Inductive Effect :=
(* the coordinator's map and the clients' queues (Hub.run) *)
| MapInsert (c : Client)                 (* h.clients[client] = true *)
| MapDelete (c : Client)                 (* delete(h.clients, client) *)
| ChanClose (c : Client)                 (* close(client.send) *)
| ChanSend (c : Client) (m : msg)        (* client.send <- message *)
| LogLine
(* requests to the coordinator *)
| SendRegister (c : Client)              (* hub.register <- client *)
| SendUnregister (c : Client)            (* c.hub.unregister <- c *)
| SendBroadcast (m : msg)                (* c.hub.broadcast <- message *)
(* the connection handle of client c *)
| SetReadLimit (c : Client) (n : Z)
| SetReadDeadline (c : Client) (t : Z)
| SetPongHandler (c : Client)
| SetWriteDeadline (c : Client) (t : Z)
| WriteMessage (c : Client) (ty : MessageType) (payload : msg)
| NextWriter (c : Client) (ty : MessageType)
| WriterWrite (c : Client) (payload : msg)
| WriterClose (c : Client)
| ConnClose (c : Client)
(* the writer's own resources *)
| ChanRecv (c : Client) (m : msg)        (* <-c.send *)
| NewTicker (c : Client) (period : Z)
| TickerStop (c : Client).

(** ** The coordinator *)

(** The coordinator's map together with the store of the clients' [send]
    channels.  A client without a channel in the store has a nil [send]. *)
Record World := mkWorld {
  clients : gmap positive bool;
  send : gmap positive Chan.t
}.

(** newHub: an empty map; the channels of the hub itself carry the events
    below. *)
Definition newHub (chans : gmap positive Chan.t) : World :=
  {| clients := ∅; send := chans |}.

Inductive HubEvent :=
| Register (c : Client)
| Unregister (c : Client)
| Broadcast (m : msg).

(** case client := <-h.register *)
Definition hub_register (c : Client) (w : World) : outcome (World * list Effect) :=
  Ok ({| clients := <[c := true]> (clients w); send := send w |},
      [MapInsert c; LogLine]).

(** case client := <-h.unregister *)
Definition hub_unregister (c : Client) (w : World) : outcome (World * list Effect) :=
  match clients w !! c with
  | Some _ =>
      match send w !! c with
      | None => Panic CloseOfNilChannel
      | Some ch =>
          match Chan.close ch with
          | Ok ch' =>
              Ok ({| clients := delete c (clients w); send := <[c := ch']> (send w) |},
                  [MapDelete c; ChanClose c; LogLine])
          | Panic p => Panic p
          end
      end
  | None => Ok (w, [])
  end.

(** The body of the loop over h.clients: a non-blocking send, and in the
    default case the eviction of the client. *)
Definition fan_out_one (m : msg) (c : Client) (w : World) : outcome (World * list Effect) :=
  let evict (ch : option Chan.t) :=
    match ch with
    | None => Panic CloseOfNilChannel
    | Some ch =>
        match Chan.close ch with
        | Ok ch' =>
            Ok ({| clients := delete c (clients w); send := <[c := ch']> (send w) |},
                [ChanClose c; MapDelete c])
        | Panic p => Panic p
        end
    end in
  match send w !! c with
  | None => evict None
  | Some ch =>
      match Chan.try_send ch m with
      | Chan.Sent ch' =>
          Ok ({| clients := clients w; send := <[c := ch']> (send w) |}, [ChanSend c m])
      | Chan.WouldBlock => evict (Some ch)
      | Chan.SendPanics => Panic SendOnClosedChannel
      end
  end.

(** for client := range h.clients, visiting the keys in the order [ks]; a
    key deleted before it is reached is not visited. *)
Fixpoint fan_out (m : msg) (ks : list Client) (w : World) : outcome (World * list Effect) :=
  match ks with
  | [] => Ok (w, [])
  | c :: ks' =>
      match clients w !! c with
      | None => fan_out m ks' w
      | Some _ =>
          match fan_out_one m c w with
          | Ok (w1, e1) =>
              match fan_out m ks' w1 with
              | Ok (w2, e2) => Ok (w2, e1 ++ e2)
              | Panic p => Panic p
              end
          | Panic p => Panic p
          end
      end
  end.

(** case message := <-h.broadcast *)
Definition hub_broadcast (m : msg) (w : World) : outcome (World * list Effect) :=
  fan_out m (map_to_list (clients w)).*1 w.

(** One turn of the select loop of Hub.run. *)
Definition hub_step (ev : HubEvent) (w : World) : outcome (World * list Effect) :=
  match ev with
  | Register c => hub_register c w
  | Unregister c => hub_unregister c w
  | Broadcast m => hub_broadcast m w
  end.

(** Hub.run on the events it receives, in the order it receives them; the
    result records each event with the effects of its turn. *)
Fixpoint run (evs : list HubEvent) (w : World)
  : outcome (World * list (HubEvent * list Effect)) :=
  match evs with
  | [] => Ok (w, [])
  | ev :: evs' =>
      match hub_step ev w with
      | Ok (w1, e) =>
          match run evs' w1 with
          | Ok (w2, tr) => Ok (w2, (ev, e) :: tr)
          | Panic p => Panic p
          end
      | Panic p => Panic p
      end
  end.


(** ** Constants of the source

    The source writes them as literals; durations are nanoseconds, as
    time.Duration is. *)

Definition Second : Z := 1000000000.

(** c.conn.SetReadLimit(512) *)
Definition readLimit : Z := 512.
(** time.Now().Add(60 * time.Second), in readPump and in its pong handler *)
Definition pongWait : Z := 60 * Second.
(** time.Now().Add(10 * time.Second), before every write of writePump *)
Definition writeWait : Z := 10 * Second.
(** time.NewTicker(54 * time.Second) *)
Definition pingPeriod : Z := 54 * Second.
(** make(chan []byte, 256) *)
Definition sendBuffer : nat := 256.

(** websocket.CloseGoingAway, websocket.CloseAbnormalClosure *)
Definition CloseGoingAway : Z := 1001.
Definition CloseAbnormalClosure : Z := 1006.

(** ** The connection handle, as far as the pumps use it *)

(** The errors ReadMessage returns. *)
Inductive ReadError :=
| ErrTimeout                   (* the read deadline passed *)
| ErrProtocol                  (* a malformed frame *)
| ErrClosed (code : Z)         (* a *CloseError: the peer's close frame, or a lost peer *)
| ErrReadLimit                 (* a message larger than the read limit *)
| ErrUseOfClosedConn.          (* the handle was closed on this side *)

(** websocket.IsUnexpectedCloseError: a close error whose code is none of
    the expected ones. *)
Definition IsUnexpectedCloseError (err : ReadError) (expected : list Z) : bool :=
  match err with
  | ErrClosed code => negb (existsb (Z.eqb code) expected)
  | _ => false
  end.

(** What reaches the connection while the Reader waits in ReadMessage. *)
Inductive Incoming :=
| InPong (now : Z)             (* a pong frame, at time [now] *)
| InData (payload : msg)       (* a data message *)
| InError (err : ReadError).   (* the read fails *)

(** What ReadMessage makes of one incoming item: a pong runs the pong
    handler and the read goes on; a data message is returned, or refused
    when it is larger than a positive read limit; an error is returned.
    The effects recorded are those of the statements of main.go, here the
    pong handler it installs.  The frames the websocket library writes on
    the connection by itself from inside ReadMessage (the close frame that
    goes with a message over the limit, the echo of a close frame, the pong
    that answers a ping) are outside this model: nothing below says that no
    frame is written on the connection while the Reader runs. *)
Definition conn_read (limit : Z) (pong : Z → list Effect) (i : Incoming)
  : list Effect * option (ReadError + msg) :=
  match i with
  | InPong now => (pong now, None)
  | InData p =>
      if (0 <? limit) && (limit <? Z.of_nat (length p))
      then ([], Some (inl ErrReadLimit))
      else ([], Some (inr p))
  | InError err => ([], Some (inl err))
  end.

Inductive pump_status :=
| Returned      (* the function returned; its deferred calls ran *)
| Waiting.      (* the function waits for its next input *)

(** ** The Reader *)

(** The handler installed by c.conn.SetPongHandler. *)
Definition pong_handler (c : Client) (now : Z) : list Effect :=
  [SetReadDeadline c (now + pongWait)].

(** The for loop of readPump. *)
Fixpoint read_loop (c : Client) (inc : list Incoming) : list Effect * pump_status :=
  match inc with
  | [] => ([], Waiting)
  | i :: rest =>
      match conn_read readLimit (pong_handler c) i with
      | (e, None) =>
          let '(e', st) := read_loop c rest in (e ++ e', st)
      | (e, Some (inl err)) =>
          (e ++ (if IsUnexpectedCloseError err [CloseGoingAway; CloseAbnormalClosure]
                 then [LogLine] else []),
           Returned)
      | (e, Some (inr message)) =>
          let '(e', st) := read_loop c rest in (e ++ SendBroadcast message :: e', st)
      end
  end.

(** readPump of client [c], started at time [now0], on the items that reach
    its connection. *)
Definition readPump (c : Client) (now0 : Z) (inc : list Incoming)
  : list Effect * pump_status :=
  let '(body, st) := read_loop c inc in
  ([SetReadLimit c readLimit; SetReadDeadline c (now0 + pongWait); SetPongHandler c]
     ++ body
     ++ match st with
        | Returned => [SendUnregister c; ConnClose c]     (* the deferred function *)
        | Waiting => []
        end,
   st).

(** ** The Writer *)

(** What wakes the select of writePump, with the time and the outcome of
    the writes of that turn. *)
Inductive Wake :=
| WakeSend (now : Z) (nextWriterOk closeOk : bool)   (* case message, ok := <-c.send *)
| WakeTick (now : Z) (pingOk : bool).                (* case <-ticker.C *)

Definition newline : msg := [Byte.x0a].

(** for i := 0; i < n; i++ { w.Write([]byte("\n")); w.Write(<-c.send) }.
    [None]: a receive would wait. *)
Fixpoint drain (c : Client) (n : nat) (ch : Chan.t) : option (list Effect * Chan.t) :=
  match n with
  | O => Some ([], ch)
  | S n' =>
      match Chan.recv ch with
      | Chan.Received m ch1 =>
          match drain c n' ch1 with
          | Some (e, ch2) =>
              Some (WriterWrite c newline :: ChanRecv c m :: WriterWrite c m :: e, ch2)
          | None => None
          end
      | Chan.RecvClosed =>
          match drain c n' ch with
          | Some (e, ch2) => Some (WriterWrite c newline :: WriterWrite c [] :: e, ch2)
          | None => None
          end
      | Chan.RecvWaits => None
      end
  end.

Inductive turn :=
| Continue      (* back to the select *)
| Return        (* return from writePump *)
| Stuck.        (* waits inside the turn *)

(** One turn of the select loop of writePump. *)
Definition write_turn (c : Client) (wk : Wake) (ch : Chan.t)
  : list Effect * Chan.t * turn :=
  match wk with
  | WakeSend now nextWriterOk closeOk =>
      match Chan.recv ch with
      | Chan.RecvWaits => ([], ch, Continue)        (* the case is not ready *)
      | Chan.RecvClosed =>
          ([SetWriteDeadline c (now + writeWait); WriteMessage c CloseMessage []],
           ch, Return)
      | Chan.Received message ch1 =>
          let pre := [ChanRecv c message;
                      SetWriteDeadline c (now + writeWait);
                      NextWriter c TextMessage] in
          if nextWriterOk then
            match drain c (Chan.len ch1) ch1 with
            | Some (e, ch2) =>
                (pre ++ WriterWrite c message :: e ++ [WriterClose c], ch2,
                 if closeOk then Continue else Return)
            | None => (pre ++ [WriterWrite c message], ch1, Stuck)
            end
          else (pre, ch1, Return)
      end
  | WakeTick now pingOk =>
      ([SetWriteDeadline c (now + writeWait); WriteMessage c PingMessage []],
       ch, if pingOk then Continue else Return)
  end.

(** The for loop of writePump. *)
Fixpoint write_loop (c : Client) (wakes : list Wake) (ch : Chan.t)
  : list Effect * Chan.t * pump_status :=
  match wakes with
  | [] => ([], ch, Waiting)
  | wk :: rest =>
      match write_turn c wk ch with
      | (e, ch1, Continue) =>
          let '(e', ch2, st) := write_loop c rest ch1 in (e ++ e', ch2, st)
      | (e, ch1, Return) => (e, ch1, Returned)
      | (e, ch1, Stuck) => (e, ch1, Waiting)
      end
  end.

(** writePump of client [c] on the queue [ch]. *)
Definition writePump (c : Client) (wakes : list Wake) (ch : Chan.t)
  : list Effect * Chan.t * pump_status :=
  let '(body, ch', st) := write_loop c wakes ch in
  (NewTicker c pingPeriod
     :: body
     ++ match st with
        | Returned => [TickerStop c; ConnClose c]         (* the deferred function *)
        | Waiting => []
        end,
   ch', st).

(** ** serveWs *)

(** client := &Client{hub: hub, conn: conn, send: make(chan []byte, 256)}:
    an address that is not in use, with a new queue of 256 slots. *)
Definition new_client (w : World) : World * Client :=
  let c := fresh (dom (send w)) in
  ({| clients := clients w; send := <[c := Chan.make sendBuffer]> (send w) |}, c).

(** A failed upgrade creates nothing; otherwise the new client is sent to
    the coordinator for registration (and its two pumps are started). *)
Definition serveWs (upgradeOk : bool) (w : World) : World * list Effect * option Client :=
  if upgradeOk then
    let '(w1, c) := new_client w in (w1, [SendRegister c], Some c)
  else (w, [LogLine], None).

(** ** The program around the coordinator

    What the rest of the program sends to the coordinator: serveWs sends a
    client it has just made to h.register; the deferred function of a
    readPump sends its client to h.unregister; the loop of a readPump sends
    a message to h.broadcast. *)
Inductive Request :=
| Connect                      (* serveWs, after a successful upgrade *)
| Disconnect (c : Client)      (* c.hub.unregister <- c *)
| Publish (m : msg).           (* c.hub.broadcast <- message *)

Definition request_event (r : Request) (w : World) : World * HubEvent :=
  match r with
  | Connect => let '(w1, c) := new_client w in (w1, Register c)
  | Disconnect c => (w, Unregister c)
  | Publish m => (w, Broadcast m)
  end.

(** The coordinator serving the requests of the program, in the order it
    receives them. *)
Fixpoint serve (reqs : list Request) (w : World)
  : outcome (World * list (HubEvent * list Effect)) :=
  match reqs with
  | [] => Ok (w, [])
  | r :: reqs' =>
      let '(w0, ev) := request_event r w in
      match hub_step ev w0 with
      | Ok (w1, e) =>
          match serve reqs' w1 with
          | Ok (w2, tr) => Ok (w2, (ev, e) :: tr)
          | Panic p => Panic p
          end
      | Panic p => Panic p
      end
  end.

(** ** Vocabulary of the statements *)

(** [c] is in the live set: a key of h.clients. *)
Definition live (w : World) (c : Client) : Prop := is_Some (clients w !! c).

(** The queue of [c] exists and is open; exists and is closed. *)
Definition queue_open (w : World) (c : Client) : Prop :=
  ∃ ch, send w !! c = Some ch ∧ Chan.closed ch = false.

Definition queue_shut (w : World) (c : Client) : Prop :=
  ∃ ch, send w !! c = Some ch ∧ Chan.closed ch = true.

(** The coordinator's invariant: every client of the live set has an open
    queue. *)
Definition hub_inv (w : World) : Prop := ∀ c, live w c → queue_open w c.

(** The queue [ch], open, with [ms] appended; and [ch] closed. *)
Definition enqueued (ms : list msg) (ch : Chan.t) : Chan.t :=
  {| Chan.buf := Chan.buf ch ++ ms; Chan.cap := Chan.cap ch; Chan.closed := false |}.

Definition shut (ch : Chan.t) : Chan.t :=
  {| Chan.buf := Chan.buf ch; Chan.cap := Chan.cap ch; Chan.closed := true |}.

(** The effects of one turn of the fan-out loop for a client with an open
    queue. *)
Definition fan_out_effects (m : msg) (w : World) (c : Client) : list Effect :=
  match send w !! c with
  | Some ch => if Chan.full ch then [ChanClose c; MapDelete c] else [ChanSend c m]
  | None => []
  end.

(** The effects of a run of the coordinator, in order. *)
Definition log_of (tr : list (HubEvent * list Effect)) : list Effect :=
  flat_map snd tr.

(** An operation of the coordinator on the queue of [c]. *)
Definition touches (c : Client) (l : list Effect) : Prop :=
  ChanClose c ∈ l ∨ ∃ m, ChanSend c m ∈ l.

(** A turn of the coordinator that evicts [c] for backpressure, and a turn
    that takes [c] out of the map. *)
Definition evicts (c : Client) (step : HubEvent * list Effect) : Prop :=
  ∃ m, step.1 = Broadcast m ∧ MapDelete c ∈ step.2.

Definition removes (c : Client) (step : HubEvent * list Effect) : Prop :=
  step.1 = Unregister c ∨ evicts c step.

(** Every register request of [evs] arrives for an entry whose queue is
    open at that moment (serveWs registers an entry once, right after it
    made its queue). *)
Fixpoint registers_open (evs : list HubEvent) (w : World) : Prop :=
  match evs with
  | [] => True
  | ev :: evs' =>
      match ev with Register c => queue_open w c | _ => True end
      ∧ match hub_step ev w with
        | Ok (w1, _) => registers_open evs' w1
        | Panic _ => True
        end
  end.

Definition mutates_live_set (e : Effect) : bool :=
  match e with
  | MapInsert _ | MapDelete _ => true
  | _ => false
  end.

(** The effects a pump of client [c] may have: operations on the
    connection of [c], and for the Writer its ticker and receives from its
    own queue. *)
Definition on_own_conn (c : Client) (e : Effect) : Prop :=
  match e with
  | SetReadLimit c' _ | SetReadDeadline c' _ | SetPongHandler c'
  | SetWriteDeadline c' _ | WriteMessage c' _ _ | NextWriter c' _
  | WriterWrite c' _ | WriterClose c' | ConnClose c' => c' = c
  | _ => False
  end.

Definition reader_effect (c : Client) (e : Effect) : Prop :=
  match e with
  | SendBroadcast _ | LogLine => True
  | SendUnregister c' => c' = c
  | _ => on_own_conn c e
  end.

Definition writer_effect (c : Client) (e : Effect) : Prop :=
  match e with
  | ChanRecv c' _ | NewTicker c' _ | TickerStop c' => c' = c
  | _ => on_own_conn c e
  end.

Definition is_unregister_request (e : Effect) : bool :=
  match e with SendUnregister _ => true | _ => false end.

(** An incoming item on which ReadMessage returns an error. *)
Definition read_fails (i : Incoming) : bool :=
  match i with
  | InPong _ => false
  | InData p => 512 <? Z.of_nat (length p)
  | InError _ => true
  end.

(** What the Reader does with an item that is no failure. *)
Definition forwarded (c : Client) (i : Incoming) : list Effect :=
  match i with
  | InPong now => [SetReadDeadline c (now + 60 * Second)]
  | InData p => [SendBroadcast p]
  | InError _ => []
  end.

(** The bytes handed to the message writer, in order. *)
Fixpoint written (l : list Effect) : msg :=
  match l with
  | [] => []
  | WriterWrite _ p :: l' => p ++ written l'
  | _ :: l' => written l'
  end.

(** The messages taken from the queue, in order. *)
Fixpoint received (l : list Effect) : list msg :=
  match l with
  | [] => []
  | ChanRecv _ m :: l' => m :: received l'
  | _ :: l' => received l'
  end.

(** The effects of one successful coalesced write and of successful probes. *)
Definition batch (c : Client) (now : Z) (m : msg) (rest : list msg) : list Effect :=
  [ChanRecv c m; SetWriteDeadline c (now + 10 * Second); NextWriter c TextMessage;
   WriterWrite c m]
  ++ flat_map (λ x, [WriterWrite c newline; ChanRecv c x; WriterWrite c x]) rest
  ++ [WriterClose c].

Definition probes (c : Client) (ts : list Z) : list Effect :=
  flat_map (λ t, [SetWriteDeadline c (t + 10 * Second); WriteMessage c PingMessage []]) ts.

Definition ticks (ts : list Z) : list Wake := map (λ t, WakeTick t true) ts.

(** Messages joined by the newline delimiter. *)
Definition joined (m : msg) (rest : list msg) : msg :=
  m ++ flat_map (λ x, newline ++ x) rest.

(** The diagnostic the Reader logs for a failure: only for a close error
    whose code is neither going-away nor abnormal-closure. *)
Definition diagnostics (i : Incoming) : list Effect :=
  match i with
  | InError err =>
      if IsUnexpectedCloseError err [CloseGoingAway; CloseAbnormalClosure]
      then [LogLine] else []
  | _ => []
  end.

(** ** Concrete coordinators and requests used as examples *)

(** A queue of 256 slots holding 256 messages, in a coordinator whose only
    client owns it. *)
Definition full_queue : Chan.t :=
  {| Chan.buf := repeat [Byte.x68; Byte.x69] 256; Chan.cap := 256; Chan.closed := false |}.

Definition saturated_world : World :=
  {| clients := {[ 1%positive := true ]}; send := {[ 1%positive := full_queue ]} |}.

Definition two_clients : World :=
  {| clients := {[ 1%positive := true; 2%positive := true ]};
     send := {[ 1%positive := full_queue; 2%positive := Chan.make sendBuffer ]} |}.

Definition two_fresh_queues : gmap positive Chan.t :=
  {[ 1%positive := Chan.make sendBuffer; 2%positive := Chan.make sendBuffer ]}.

Definition churn : list HubEvent :=
  [Register 1; Register 2; Broadcast [Byte.x68; Byte.x69]; Unregister 1; Unregister 1;
   Register 2; Broadcast [Byte.x21]; Unregister 2].

Definition lobby : list HubEvent :=
  [Register 1; Register 2; Broadcast [Byte.x68; Byte.x69]; Unregister 1].

(** The state and the trace the coordinator reaches on [lobby]. *)
Definition lobby_end : World * list (HubEvent * list Effect) :=
  match run lobby (newHub two_fresh_queues) with
  | Ok r => r
  | Panic _ => (newHub ∅, [])
  end.

(** A coordinator with two clients whose queues are both full. *)
Definition two_full : World :=
  {| clients := {[ 1%positive := true; 2%positive := true ]};
     send := {[ 1%positive := full_queue; 2%positive := full_queue ]} |}.

(** A queue holding two messages, open and closed by the coordinator. *)
Definition ab_queue : Chan.t :=
  {| Chan.buf := [[Byte.x61]; [Byte.x62]]; Chan.cap := 256; Chan.closed := false |}.

Definition ab_closed_queue : Chan.t :=
  {| Chan.buf := [[Byte.x61]; [Byte.x62]]; Chan.cap := 256; Chan.closed := true |}.

(** ** Vocabulary of the further properties *)

(** The messages sent to h.broadcast, in order. *)
Fixpoint sent_messages (l : list Effect) : list msg :=
  match l with
  | [] => []
  | SendBroadcast m :: l' => m :: sent_messages l'
  | _ :: l' => sent_messages l'
  end.

(** The data messages that arrive before the first failing item. *)
Fixpoint accepted (inc : list Incoming) : list msg :=
  match inc with
  | [] => []
  | i :: rest =>
      if read_fails i then []
      else match i with
           | InData p => p :: accepted rest
           | _ => accepted rest
           end
  end.

(** An operation on the send queue of a client. *)
Definition queue_operation (e : Effect) : bool :=
  match e with
  | ChanClose _ | ChanSend _ _ | ChanRecv _ _ => true
  | _ => false
  end.


(** A second order of visiting the two clients of [two_clients]. *)
Definition other_order : list Client := [2%positive; 1%positive].

(** A coordinator with one client whose queue is empty. *)
Definition one_client : World :=
  {| clients := {[ 1%positive := true ]};
     send := {[ 1%positive := Chan.make sendBuffer ]} |}.

(** A coordinator that knows of a client it has not registered. *)
Definition unregistered_client : World :=
  {| clients := ∅; send := {[ 1%positive := Chan.make sendBuffer ]} |}.

(** The close notification of the Writer. *)
Definition is_close_message (e : Effect) : bool :=
  match e with
  | WriteMessage _ CloseMessage _ => true
  | _ => false
  end.

(** A queue that the coordinator closed after the Writer emptied it. *)
Definition closed_empty_queue : Chan.t :=
  {| Chan.buf := []; Chan.cap := 256; Chan.closed := true |}.


(** The read deadline in force after the effects [l]: the last one set. *)
Definition read_deadline (l : list Effect) : option Z :=
  fold_left (λ acc e, match e with SetReadDeadline _ t => Some t | _ => acc end) l None.

(** The time of the last pong of [inc], or [t0] when there is none. *)
Definition last_pong (t0 : Z) (inc : list Incoming) : Z :=
  fold_left (λ acc i, match i with InPong now => now | _ => acc end) inc t0.

(** An effect that starts a write on the connection. *)
Definition starts_write (e : Effect) : bool :=
  match e with
  | NextWriter _ _ | WriteMessage _ _ _ => true
  | _ => false
  end.

(** In [l], every effect that starts a write on the connection of [c] comes
    right after a SetWriteDeadline on that connection. *)
Definition writes_under_deadline (c : Client) (l : list Effect) : Prop :=
  ∀ l1 e l2, l = l1 ++ e :: l2 → starts_write e = true →
    ∃ l0 t, l1 = l0 ++ [SetWriteDeadline c t].
(** * Properties of the coordinator *)

Lemma flat_map_ext_elem {A B} (f g : A → list B) (l : list A) :
  (∀ a, a ∈ l → f a = g a) → flat_map f l = flat_map g l.
Proof.
  induction l as [|a l IH]; intros H; [done|]. simpl.
  rewrite (H a) by left. rewrite IH; [done|]. intros b Hb. apply H. by right.
Qed.

Lemma try_send_open ch m :
  Chan.closed ch = false →
  Chan.try_send ch m = if Chan.full ch then Chan.WouldBlock else Chan.Sent (enqueued [m] ch).
Proof. intros Hc. unfold Chan.try_send. rewrite Hc. reflexivity. Qed.

Lemma close_open ch : Chan.closed ch = false → Chan.close ch = Ok (shut ch).
Proof. intros Hc. unfold Chan.close. rewrite Hc. reflexivity. Qed.

Lemma fan_out_one_open m c w ch :
  send w !! c = Some ch → Chan.closed ch = false →
  fan_out_one m c w =
    Ok (if Chan.full ch
        then {| clients := delete c (clients w); send := <[c := shut ch]> (send w) |}
        else {| clients := clients w; send := <[c := enqueued [m] ch]> (send w) |},
        fan_out_effects m w c).
Proof.
  intros Hs Hc. unfold fan_out_one, fan_out_effects. rewrite Hs.
  rewrite (try_send_open _ _ Hc). destruct (Chan.full ch); [|done].
  by rewrite (close_open _ Hc).
Qed.

Lemma fan_out_spec m ks w :
  hub_inv w → NoDup ks → (∀ c, c ∈ ks → live w c) →
  ∃ w', fan_out m ks w = Ok (w', flat_map (fan_out_effects m w) ks)
    ∧ hub_inv w'
    ∧ (∀ c, c ∉ ks → clients w' !! c = clients w !! c ∧ send w' !! c = send w !! c)
    ∧ (∀ c ch, c ∈ ks → send w !! c = Some ch →
         if Chan.full ch
         then clients w' !! c = None ∧ send w' !! c = Some (shut ch)
         else clients w' !! c = clients w !! c ∧ send w' !! c = Some (enqueued [m] ch)).
Proof.
  revert w. induction ks as [|k ks IH]; intros w Hinv Hnd Hlive.
  { exists w. simpl. repeat split; auto. intros c ch Hc. by apply elem_of_nil in Hc. }
  apply NoDup_cons in Hnd as [Hk Hnd].
  assert (Hlk : live w k) by (apply Hlive; left).
  destruct (Hinv k Hlk) as (ch & Hch & Hopen).
  simpl. destruct Hlk as [b Hb]. rewrite Hb.
  rewrite (fan_out_one_open m k w ch Hch Hopen).
  set (w1 := if Chan.full ch then _ else _).
  assert (Hother : ∀ c, c ≠ k →
            clients w1 !! c = clients w !! c ∧ send w1 !! c = send w !! c).
  { intros c Hne. subst w1. destruct (Chan.full ch); simpl;
      rewrite ?lookup_delete_ne, ?lookup_insert_ne by done; done. }
  assert (Hinv1 : hub_inv w1).
  { intros c [b' Hc]. destruct (decide (c = k)) as [->|Hne].
    - subst w1. destruct (Chan.full ch); simpl in *.
      + by rewrite lookup_delete_eq in Hc.
      + exists (enqueued [m] ch). simpl. by rewrite lookup_insert_eq.
    - destruct (Hother c Hne) as [Hc1 Hs1]. unfold queue_open. rewrite Hs1. apply Hinv.
      exists b'. by rewrite <- Hc1. }
  destruct (IH w1 Hinv1 Hnd) as (w' & Hrun & Hinv' & Hout & Hin).
  { intros c Hc. assert (c ≠ k) by (intros ->; done).
    unfold live. rewrite (proj1 (Hother c H)). apply Hlive. by right. }
  exists w'. rewrite Hrun.
  assert (Heff : flat_map (fan_out_effects m w1) ks = flat_map (fan_out_effects m w) ks).
  { apply flat_map_ext_elem. intros c Hc.
    assert (c ≠ k) by (intros ->; done).
    unfold fan_out_effects. by rewrite (proj2 (Hother c H)). }
  rewrite Heff. split; [done|]. split; [done|]. split.
  - intros c Hc. apply not_elem_of_cons in Hc as [Hne Hc].
    destruct (Hout c Hc) as [-> ->]. by apply Hother.
  - intros c ch' Hc Hs. apply elem_of_cons in Hc as [->|Hc].
    + assert (ch' = ch) as -> by congruence.
      destruct (Hout k Hk) as [-> ->]. subst w1.
      destruct (Chan.full ch); simpl; by rewrite ?lookup_delete_eq, ?lookup_insert_eq.
    + assert (c ≠ k) by (intros ->; done).
      destruct (Hother c H) as [Hc1 Hs1].
      specialize (Hin c ch' Hc). rewrite Hs1 in Hin. specialize (Hin Hs).
      destruct (Chan.full ch'); [done|]. by rewrite <- Hc1.
Qed.

Lemma keys_live w c : c ∈ (map_to_list (clients w)).*1 ↔ live w c.
Proof.
  unfold live. rewrite list_elem_of_fmap. split.
  - intros ([k b] & -> & Hkb). apply elem_of_map_to_list in Hkb. by exists b.
  - intros [b Hb]. exists (c, b). split; [done|]. by apply elem_of_map_to_list.
Qed.

Lemma hub_broadcast_spec m w :
  hub_inv w →
  ∃ w', hub_broadcast m w
          = Ok (w', flat_map (fan_out_effects m w) (map_to_list (clients w)).*1)
    ∧ hub_inv w'
    ∧ (∀ c, ¬ live w c → clients w' !! c = clients w !! c ∧ send w' !! c = send w !! c)
    ∧ (∀ c ch, live w c → send w !! c = Some ch →
         if Chan.full ch
         then clients w' !! c = None ∧ send w' !! c = Some (shut ch)
         else clients w' !! c = clients w !! c ∧ send w' !! c = Some (enqueued [m] ch)).
Proof.
  intros Hinv.
  destruct (fan_out_spec m (map_to_list (clients w)).*1 w Hinv)
    as (w' & Hrun & Hinv' & Hout & Hin).
  { apply NoDup_fst_map_to_list. }
  { intros c. apply keys_live. }
  exists w'. repeat split; try done.
  - apply Hout. by rewrite keys_live.
  - apply Hout. by rewrite keys_live.
  - intros c ch Hl. apply Hin. by rewrite keys_live.
Qed.

Lemma world_eq w1 w2 :
  (∀ c, clients w1 !! c = clients w2 !! c) → (∀ c, send w1 !! c = send w2 !! c) → w1 = w2.
Proof.
  destruct w1 as [c1 s1], w2 as [c2 s2]. simpl. intros Hc Hs.
  f_equal; by apply map_eq.
Qed.

(** Go leaves the order of a range over a map unspecified: every order of
    visiting the keys of h.clients ends in the same map and the same
    queues. *)
Lemma fan_out_order_irrelevant m ks w :
  hub_inv w → NoDup ks → (∀ c, c ∈ ks ↔ live w c) →
  ∃ w' e e', fan_out m ks w = Ok (w', e) ∧ hub_broadcast m w = Ok (w', e').
Proof.
  intros Hinv Hnd Hks.
  destruct (fan_out_spec m ks w Hinv Hnd) as (w1 & Hrun1 & _ & Hout1 & Hin1).
  { intros c. apply Hks. }
  destruct (hub_broadcast_spec m w Hinv) as (w2 & Hrun2 & _ & Hout2 & Hin2).
  assert (w1 = w2) as ->.
  { assert (∀ c, clients w1 !! c = clients w2 !! c ∧ send w1 !! c = send w2 !! c) as H.
    { intros c. destruct (clients w !! c) as [b|] eqn:Hc.
      - assert (Hl : live w c) by (by exists b).
        destruct (Hinv c Hl) as (ch & Hch & _).
        specialize (Hin1 c ch (proj2 (Hks c) Hl) Hch). specialize (Hin2 c ch Hl Hch).
        destruct (Chan.full ch); destruct Hin1 as [-> ->], Hin2 as [-> ->]; done.
      - assert (Hl : ¬ live w c) by (intros [b Hb]; congruence).
        destruct (Hout2 c Hl) as [-> ->]. apply Hout1. by rewrite Hks. }
    apply world_eq; intros c; apply H. }
  eauto.
Qed.

(** Successive broadcasts. *)
Lemma enqueued_nil ch : Chan.closed ch = false → enqueued [] ch = ch.
Proof. destruct ch as [b n cl]. unfold enqueued. simpl. intros ->. by rewrite app_nil_r. Qed.

Lemma enqueued_cons m ms ch : enqueued ms (enqueued [m] ch) = enqueued (m :: ms) ch.
Proof. unfold enqueued. simpl. by rewrite <- app_assoc. Qed.

Lemma run_broadcasts ms w :
  hub_inv w →
  ∃ w' tr, run (map Broadcast ms) w = Ok (w', tr)
    ∧ hub_inv w'
    ∧ (∀ c, live w' c →
         live w c ∧ ∃ ch, send w !! c = Some ch ∧ send w' !! c = Some (enqueued ms ch))
    ∧ (∀ c ch, live w c → send w !! c = Some ch →
         (length (Chan.buf ch) + length ms ≤ Chan.cap ch)%nat →
         live w' c ∧ send w' !! c = Some (enqueued ms ch)).
Proof.
  revert w. induction ms as [|m ms IH]; intros w Hinv.
  { exists w, []. simpl. repeat split; try done.
    - destruct (Hinv c H) as (ch & Hch & Hopen). exists ch. by rewrite enqueued_nil.
    - destruct (Hinv c H) as (ch' & Hch' & Hopen).
      assert (ch' = ch) as -> by congruence. by rewrite enqueued_nil. }
  destruct (hub_broadcast_spec m w Hinv) as (w1 & Hrun1 & Hinv1 & Hout1 & Hin1).
  destruct (IH w1 Hinv1) as (w' & tr & Hrun & Hinv' & Hsurv & Hfit).
  simpl. rewrite Hrun1, Hrun. eexists _, _. split; [done|]. split; [done|]. split.
  - intros c Hl'. destruct (Hsurv c Hl') as (Hl1 & ch1 & Hch1 & Hch').
    assert (Hl : live w c).
    { destruct (clients w !! c) as [b|] eqn:Hc; [by exists b|].
      assert (Hn : ¬ live w c) by (intros [b Hb]; congruence).
      destruct (Hout1 c Hn) as [Hc1 _]. destruct Hl1 as [b Hb]. congruence. }
    split; [done|]. destruct (Hinv c Hl) as (ch & Hch & _). exists ch. split; [done|].
    specialize (Hin1 c ch Hl Hch). destruct (Chan.full ch).
    + destruct Hin1 as [Hnone _]. destruct Hl1 as [b Hb]. congruence.
    + destruct Hin1 as [_ Hs1]. assert (ch1 = enqueued [m] ch) as -> by congruence.
      by rewrite <- enqueued_cons.
  - intros c ch Hl Hch Hlen. simpl in Hlen.
    specialize (Hin1 c ch Hl Hch).
    assert (Chan.full ch = false) as Hnf.
    { unfold Chan.full, Chan.len. apply Nat.leb_gt. lia. }
    rewrite Hnf in Hin1. destruct Hin1 as [Hc1 Hs1].
    destruct (Hfit c (enqueued [m] ch)) as [Hl' Hs'].
    + unfold live. by rewrite Hc1.
    + done.
    + simpl. rewrite length_app. simpl. lia.
    + split; [done|]. by rewrite <- enqueued_cons.
Qed.

Lemma fan_out_effects_send m w c ch :
  live w c → send w !! c = Some ch → Chan.full ch = false →
  ChanSend c m ∈ flat_map (fan_out_effects m w) (map_to_list (clients w)).*1.
Proof.
  intros Hl Hs Hf. apply list_elem_of_In, in_flat_map. exists c. split.
  - apply list_elem_of_In. by apply keys_live.
  - unfold fan_out_effects. rewrite Hs, Hf. by left.
Qed.

Lemma fan_out_effects_only m w c e :
  e ∈ fan_out_effects m w c → e = ChanClose c ∨ e = MapDelete c ∨ e = ChanSend c m.
Proof.
  unfold fan_out_effects. destruct (send w !! c) as [ch|]; [|by intros ?%elem_of_nil].
  destruct (Chan.full ch); rewrite ?elem_of_cons, ?elem_of_nil; intuition.
Qed.

Lemma fan_out_effects_evict m w c ch ks :
  c ∈ ks → send w !! c = Some ch → Chan.full ch = true →
  ChanClose c ∈ flat_map (fan_out_effects m w) ks
  ∧ MapDelete c ∈ flat_map (fan_out_effects m w) ks
  ∧ ∀ m', ChanSend c m' ∉ flat_map (fan_out_effects m w) ks.
Proof.
  intros Hc Hs Hf.
  assert (Hfo : fan_out_effects m w c = [ChanClose c; MapDelete c]).
  { unfold fan_out_effects. by rewrite Hs, Hf. }
  repeat split.
  - apply list_elem_of_In, in_flat_map. exists c. rewrite <- list_elem_of_In.
    split; [done|]. rewrite Hfo. by left.
  - apply list_elem_of_In, in_flat_map. exists c. rewrite <- list_elem_of_In.
    split; [done|]. rewrite Hfo. right. by left.
  - intros m' Hin. apply list_elem_of_In, in_flat_map in Hin as (k & _ & Hk).
    apply list_elem_of_In in Hk.
    destruct (fan_out_effects_only _ _ _ _ Hk) as [?|[?|Heq]]; try done.
    injection Heq as -> ->. rewrite Hfo in Hk.
    rewrite !elem_of_cons, elem_of_nil in Hk. by destruct Hk as [?|[?|[]]].
Qed.


(** ** One turn of the coordinator and the queues *)

Lemma touches_app c l1 l2 : touches c (l1 ++ l2) ↔ touches c l1 ∨ touches c l2.
Proof.
  unfold touches. setoid_rewrite elem_of_app. split.
  - intros [[?|?]|[m [?|?]]]; eauto.
  - intros [[?|[m ?]]|[?|[m ?]]]; eauto.
Qed.

Lemma touches_fan_out_effects m w ks c :
  touches c (flat_map (fan_out_effects m w) ks) →
  c ∈ ks ∧ touches c (fan_out_effects m w c).
Proof.
  assert (∀ e, e = ChanClose c ∨ (∃ m', e = ChanSend c m') →
            e ∈ flat_map (fan_out_effects m w) ks →
            c ∈ ks ∧ e ∈ fan_out_effects m w c) as H.
  { intros e He Hin. apply list_elem_of_In, in_flat_map in Hin as (k & Hk & Hek).
    apply list_elem_of_In in Hk, Hek.
    assert (k = c) as ->; [|done].
    destruct (fan_out_effects_only _ _ _ _ Hek) as [-> | [-> | -> ]];
      destruct He as [He|[m' He]]; congruence. }
  intros [Hc|[m' Hs]].
  - destruct (H _ (or_introl eq_refl) Hc). split; [done|]. by left.
  - destruct (H (ChanSend c m')) as [? ?]; [right; eauto|done|]. split; [done|].
    right. eauto.
Qed.

Lemma fan_out_effects_close_last m w ks c l1 l2 :
  NoDup ks →
  flat_map (fan_out_effects m w) ks = l1 ++ ChanClose c :: l2 → ¬ touches c l2.
Proof.
  revert l1. induction ks as [|k ks IH]; intros l1 Hnd Heq.
  { by destruct l1. }
  apply NoDup_cons in Hnd as [Hk Hnd]. simpl in Heq.
  unfold fan_out_effects at 1 in Heq.
  destruct (send w !! k) as [ch|]; [destruct (Chan.full ch)|]; simpl in Heq.
  - destruct l1 as [|x [|y l1]]; simplify_eq/=.
    + intros Ht. apply (touches_app c [MapDelete c]) in Ht as [Ht|Ht].
      * destruct Ht as [Ht|[m' Ht]]; apply list_elem_of_singleton in Ht; done.
      * apply touches_fan_out_effects in Ht as [? _]. done.
    + by eapply IH.
  - destruct l1 as [|x l1]; simplify_eq/=. by eapply IH.
  - by eapply IH.
Qed.

Lemma queue_shut_not_open w c : queue_shut w c → ¬ queue_open w c.
Proof. intros (ch & Hs & Hc) (ch' & Hs' & Ho). congruence. Qed.

(** A turn of the coordinator in a state where the live clients have open
    queues, for a request that does not register a closed queue: it
    completes, operates only on queues that are open, leaves a queue it
    closes closed and untouched for the rest of the turn, opens no queue and
    leaves closed queues closed. *)
Lemma hub_step_safe ev w :
  hub_inv w →
  match ev with Register c => queue_open w c | _ => True end →
  ∃ w1 e, hub_step ev w = Ok (w1, e)
    ∧ hub_inv w1
    ∧ (∀ c, touches c e → queue_open w c)
    ∧ (∀ c, ChanClose c ∈ e → queue_shut w1 c)
    ∧ (∀ c l1 l2, e = l1 ++ ChanClose c :: l2 → ¬ touches c l2)
    ∧ (∀ c, queue_open w1 c → queue_open w c)
    ∧ (∀ c, queue_shut w c → queue_shut w1 c).
Proof.
  intros Hinv Hreg. destruct ev as [c|c|m]; simpl.
  - (* register *)
    eexists _, _. split; [reflexivity|]. split; [|split; [|split; [|split]]].
    + intros c' [b Hb]. simpl in *. destruct (decide (c' = c)) as [->|Hne]; [done|].
      rewrite lookup_insert_ne in Hb by done. apply Hinv. by exists b.
    + intros c' [H|[m H]]; rewrite !elem_of_cons, elem_of_nil in H;
        destruct H as [H|[H|H]]; done.
    + intros c' H. rewrite !elem_of_cons, elem_of_nil in H.
      destruct H as [H|[H|H]]; done.
    + intros c' l1 l2 H.
      destruct l1 as [|x [|y [|z l1]]]; simplify_eq/=; try by destruct l1.
    + done.
  - (* unregister *)
    unfold hub_unregister. destruct (clients w !! c) as [b|] eqn:Hb.
    2:{ exists w, []. split; [done|]. split; [done|]. split; [|split; [|split]].
        - intros c' [H|[m H]]; by apply elem_of_nil in H.
        - intros c' H. by apply elem_of_nil in H.
        - intros c' l1 l2 H. by destruct l1.
        - done. }
    destruct (Hinv c) as (ch & Hch & Hopen); [by exists b|].
    rewrite Hch, (close_open _ Hopen). eexists _, _. split; [reflexivity|].
    split; [|split; [|split; [|split; [|split]]]].
    + intros c' [b' Hb']. simpl in *. destruct (decide (c' = c)) as [->|Hne].
      { by rewrite lookup_delete_eq in Hb'. }
      rewrite lookup_delete_ne in Hb' by done. unfold queue_open. simpl.
      rewrite lookup_insert_ne by done. apply Hinv. by exists b'.
    + intros c' Ht. assert (c' = c) as ->; [|by exists ch].
      destruct Ht as [H|[m H]]; rewrite !elem_of_cons, elem_of_nil in H;
        destruct H as [H|[H|[H|H]]]; first [done | congruence].
    + intros c' H. assert (c' = c) as ->.
      { rewrite !elem_of_cons, elem_of_nil in H.
        destruct H as [H|[H|[H|H]]]; first [done | congruence]. }
      exists (shut ch). simpl. by rewrite lookup_insert_eq.
    + intros c' l1 l2 H.
      destruct l1 as [|x [|y [|z l1]]]; simplify_eq/=; try by destruct l1.
      intros [Ht|[m Ht]]; apply list_elem_of_singleton in Ht; done.
    + intros c' (ch' & Hch' & Hopen'). simpl in Hch'.
      destruct (decide (c' = c)) as [->|Hne].
      { rewrite lookup_insert_eq in Hch'. by simplify_eq. }
      rewrite lookup_insert_ne in Hch' by done. by exists ch'.
    + intros c' (ch' & Hch' & Hshut). destruct (decide (c' = c)) as [->|Hne].
      { exists (shut ch). simpl. by rewrite lookup_insert_eq. }
      exists ch'. simpl. by rewrite lookup_insert_ne.
  - (* broadcast *)
    destruct (hub_broadcast_spec m w Hinv) as (w1 & Hrun & Hinv1 & Hout & Hin).
    exists w1. eexists. split; [exact Hrun|]. split; [done|].
    split; [|split; [|split; [|split]]].
    + intros c Ht. apply touches_fan_out_effects in Ht as [Hc _].
      apply Hinv. by apply keys_live.
    + intros c Hc.
      destruct (touches_fan_out_effects m w _ c (or_introl Hc)) as [Hk _].
      apply keys_live in Hk. destruct (Hinv c Hk) as (ch & Hch & _).
      assert (Hfull : Chan.full ch = true).
      { apply list_elem_of_In, in_flat_map in Hc as (k & _ & Hek).
        apply list_elem_of_In in Hek. unfold fan_out_effects in Hek.
        destruct (send w !! k) as [ch0|] eqn:Hk0; [|by apply elem_of_nil in Hek].
        destruct (Chan.full ch0) eqn:Hf0.
        - rewrite !elem_of_cons, elem_of_nil in Hek.
          destruct Hek as [Hek|[Hek|Hek]]; [|done|done]. by simplify_eq.
        - apply list_elem_of_singleton in Hek. done. }
      specialize (Hin c ch Hk Hch). rewrite Hfull in Hin.
      exists (shut ch). by destruct Hin.
    + intros c l1 l2. apply fan_out_effects_close_last, NoDup_fst_map_to_list.
    + intros c Hopen. destruct (clients w !! c) as [b|] eqn:Hb.
      * apply Hinv. by exists b.
      * assert (Hn : ¬ live w c) by (intros [b' Hb']; congruence).
        destruct (Hout c Hn) as [_ Hs]. unfold queue_open. by rewrite <- Hs.
    + intros c (ch & Hch & Hshut).
      assert (Hn : ¬ live w c).
      { intros Hl. destruct (Hinv c Hl) as (ch' & Hch' & Hopen). congruence. }
      destruct (Hout c Hn) as [_ Hs]. exists ch. by rewrite Hs.
Qed.

(** A second unregister request changes nothing. *)
Lemma hub_unregister_twice c w w1 e1 :
  hub_unregister c w = Ok (w1, e1) → hub_unregister c w1 = Ok (w1, []).
Proof.
  unfold hub_unregister. destruct (clients w !! c) as [b|] eqn:Hb.
  - destruct (send w !! c) as [ch|]; [|done]. destruct (Chan.close ch); [|done].
    intros [= <- <-]. simpl. by rewrite lookup_delete_eq.
  - intros [= <- <-]. by rewrite Hb.
Qed.

(** ** One turn of the coordinator and the live set *)

Lemma fan_out_one_clients m c w w1 e :
  fan_out_one m c w = Ok (w1, e) →
  (clients w1 = clients w ∧ e = [ChanSend c m])
  ∨ (clients w1 = delete c (clients w) ∧ e = [ChanClose c; MapDelete c]).
Proof.
  unfold fan_out_one. destruct (send w !! c) as [ch|]; [|done].
  destruct (Chan.try_send ch m).
  - intros [= <- <-]. by left.
  - destruct (Chan.close ch); [|done]. intros [= <- <-]. by right.
  - done.
Qed.

Lemma fan_out_clients m ks w w' e :
  fan_out m ks w = Ok (w', e) →
  ∀ c, (clients w !! c = None → clients w' !! c = None)
     ∧ (MapDelete c ∈ e → clients w' !! c = None)
     ∧ (MapDelete c ∉ e → clients w' !! c = clients w !! c).
Proof.
  revert w w' e. induction ks as [|k ks IH]; intros w w' e Hrun c; simpl in Hrun.
  { simplify_eq. split; [done|]. split; [|done]. by intros ?%elem_of_nil. }
  destruct (clients w !! k) as [b|] eqn:Hb; [|by eapply IH].
  destruct (fan_out_one m k w) as [[w1 e1]|] eqn:H1; [|done].
  destruct (fan_out m ks w1) as [[w2 e2]|] eqn:H2; [|done]. simplify_eq.
  destruct (IH _ _ _ H2 c) as (Hnone & Hdel & Hkeep).
  destruct (fan_out_one_clients _ _ _ _ _ H1) as [[Hc ->]|[Hc ->]]; rewrite Hc in *; simpl.
  - split; [done|]. split.
    + intros Hin. apply elem_of_cons in Hin as [|Hin]; [done|]. by apply Hdel.
    + intros Hn. apply not_elem_of_cons in Hn as [_ Hn]. by apply Hkeep.
  - split; [|split].
    + intros Hn. apply Hnone. destruct (decide (c = k)) as [->|Hne].
      * by rewrite lookup_delete_eq.
      * by rewrite lookup_delete_ne.
    + intros Hin. rewrite !elem_of_cons in Hin. destruct Hin as [|[Hin|Hin]]; [done| |].
      * simplify_eq. apply Hnone. by rewrite lookup_delete_eq.
      * by apply Hdel.
    + intros Hn. rewrite !not_elem_of_cons in Hn. destruct Hn as (_ & Hne & Hn).
      rewrite (Hkeep Hn). apply lookup_delete_ne. congruence.
Qed.

(** After a turn a client is live exactly when the turn registered it, or
    it was live and the turn neither unregistered nor evicted it. *)
Lemma hub_step_live ev w w1 e c :
  hub_step ev w = Ok (w1, e) →
  live w1 c ↔ ev = Register c ∨ (live w c ∧ ¬ removes c (ev, e)).
Proof.
  unfold removes, evicts, live. destruct ev as [k|k|m]; simpl.
  - intros [= <- <-]. simpl. destruct (decide (c = k)) as [->|Hne].
    + rewrite lookup_insert_eq. split; eauto.
    + rewrite lookup_insert_ne by done. split.
      * intros H. right. split; [done|]. intros [?|(m & ? & _)]; done.
      * intros [?|[? _]]; [congruence|done].
  - unfold hub_unregister. destruct (clients w !! k) as [b|] eqn:Hb.
    + destruct (send w !! k) as [ch|]; [|done]. destruct (Chan.close ch); [|done].
      intros [= <- <-]. simpl. destruct (decide (c = k)) as [->|Hne].
      * rewrite lookup_delete_eq. split; [by intros [? ?]|].
        intros [?|[_ Hn]]; [done|]. destruct Hn. by left.
      * rewrite lookup_delete_ne by done. split.
        -- intros H. right. split; [done|]. intros [?|(m & ? & _)]; [congruence|done].
        -- intros [?|[? _]]; done.
    + intros [= <- <-]. split.
      * intros H. right. split; [done|]. intros [[= ->]|(m & ? & _)]; [|done].
        rewrite Hb in H. by destruct H.
      * intros [?|[? _]]; done.
  - intros Hrun. destruct (fan_out_clients _ _ _ _ _ Hrun c) as (_ & Hdel & Hkeep). split.
    + intros Hl. right.
      assert (Hn : MapDelete c ∉ e).
      { intros Hin. rewrite (Hdel Hin) in Hl. by destruct Hl. }
      rewrite <- (Hkeep Hn). split; [done|]. intros [?|(m' & _ & ?)]; done.
    + intros [?|[Hl Hn]]; [done|].
      rewrite Hkeep; [done|]. intros Hin. apply Hn. right. eauto.
Qed.

(** ** Runs of the coordinator *)

Lemma run_safe evs w :
  hub_inv w → registers_open evs w →
  ∃ w' tr, run evs w = Ok (w', tr)
    ∧ hub_inv w'
    ∧ (∀ c, touches c (log_of tr) → queue_open w c)
    ∧ (∀ c l1 l2, log_of tr = l1 ++ ChanClose c :: l2 → ¬ touches c l2).
Proof.
  revert w. induction evs as [|ev evs IH]; intros w Hinv Hreg.
  { exists w, []. split; [done|]. split; [done|]. split.
    - intros c [H|[m H]]; by apply elem_of_nil in H.
    - intros c l1 l2 H. by destruct l1. }
  destruct Hreg as [Hev Hreg].
  destruct (hub_step_safe ev w Hinv Hev)
    as (w1 & e & Hstep & Hinv1 & Hopen & Hclosed & Hlast & Hmono & _).
  simpl. rewrite Hstep in Hreg |- *.
  destruct (IH w1 Hinv1 Hreg) as (w' & tr & Hrun & Hinv' & Hopen' & Hlast').
  rewrite Hrun. eexists _, _. split; [reflexivity|]. split; [done|].
  unfold log_of in *. simpl. split.
  - intros c Ht. apply touches_app in Ht as [Ht|Ht]; [by apply Hopen|].
    by apply Hmono, Hopen'.
  - intros c l1 l2 Heq. apply app_eq_app in Heq as [l [[He Hl]|[Hl1 Hl]]].
    + destruct l as [|x l]; simpl in Hl.
      * by apply (Hlast' c [] l2).
      * injection Hl as <- ->. intros Ht. apply touches_app in Ht as [Ht|Ht].
        -- by apply (Hlast c l1 l).
        -- apply (queue_shut_not_open w1 c); [|by apply Hopen'].
           apply Hclosed. rewrite He. apply elem_of_app. right. by left.
    + by apply (Hlast' c l l2).
Qed.

Lemma run_live evs w w' tr c :
  run evs w = Ok (w', tr) →
  live w' c ↔
    (live w c ∧ Forall (λ s, ¬ removes c s) tr)
    ∨ (∃ pre e post, tr = pre ++ (Register c, e) :: post
                     ∧ Forall (λ s, ¬ removes c s) post).
Proof.
  revert w tr. induction evs as [|ev evs IH]; intros w tr Hrun; simpl in Hrun.
  { simplify_eq. split.
    - intros H. left. by split.
    - intros [[H _]|(pre & e & post & H & _)]; [done|by destruct pre]. }
  destruct (hub_step ev w) as [[w1 e]|] eqn:Hstep; [|done].
  destruct (run evs w1) as [[w2 tr']|] eqn:Hrun'; [|done]. simplify_eq.
  rewrite (IH _ _ Hrun'), (hub_step_live _ _ _ _ c Hstep). split.
  - intros [[[->|[Hl Hn]] Hall]|(pre & e0 & post & -> & Hall)].
    + right. by exists [], e, tr'.
    + left. split; [done|]. by constructor.
    + right. by exists ((ev, e) :: pre), e0, post.
  - intros [[Hl Hall]|(pre & e0 & post & Heq & Hall)].
    + apply Forall_cons in Hall as [Hn Hall]. left. split; [|done]. right. by split.
    + destruct pre as [|x pre]; simpl in Heq; injection Heq as ? ?; simplify_eq.
      * left. split; [by left|done].
      * right. by exists pre, e0, post.
Qed.

(** ** The coordinator inside the program *)

Lemma new_client_spec w w0 c :
  new_client w = (w0, c) → hub_inv w →
  hub_inv w0
  ∧ queue_open w0 c
  ∧ send w !! c = None
  ∧ clients w0 = clients w
  ∧ (∀ c', queue_shut w c' → queue_shut w0 c').
Proof.
  unfold new_client. intros [= <- <-] Hinv.
  set (c := fresh (dom (send w))).
  assert (Hfresh : send w !! c = None) by apply not_elem_of_dom, is_fresh.
  assert (Hkeep : ∀ c' ch, send w !! c' = Some ch →
            <[c := Chan.make sendBuffer]> (send w) !! c' = Some ch).
  { intros c' ch Hs. rewrite lookup_insert_ne; [done|]. intros <-. congruence. }
  split; [|split; [|split; [|split]]]; try done.
  - intros c' Hl. destruct (Hinv c' Hl) as (ch & Hs & Ho). exists ch. split; [|done].
    by apply Hkeep.
  - exists (Chan.make sendBuffer). simpl. by rewrite lookup_insert_eq.
  - intros c' (ch & Hs & Hc). exists ch. split; [|done]. by apply Hkeep.
Qed.

(** Whatever the program sends, the coordinator completes its turn and
    touches no queue that is closed. *)
Lemma request_step_safe r w :
  hub_inv w →
  ∃ w1 e, hub_step (request_event r w).2 (request_event r w).1 = Ok (w1, e)
    ∧ hub_inv w1
    ∧ (∀ c, touches c e → ¬ queue_shut w c)
    ∧ (∀ c, ChanClose c ∈ e → queue_shut w1 c)
    ∧ (∀ c l1 l2, e = l1 ++ ChanClose c :: l2 → ¬ touches c l2)
    ∧ (∀ c, queue_shut w c → queue_shut w1 c).
Proof.
  intros Hinv.
  assert (∃ w0 ev, request_event r w = (w0, ev)
            ∧ hub_inv w0
            ∧ match ev with Register c => queue_open w0 c | _ => True end
            ∧ (∀ c, queue_shut w c → queue_shut w0 c))
    as (w0 & ev & -> & Hinv0 & Hreg & Hshut0).
  { destruct r as [|c|m]; unfold request_event.
    - destruct (new_client w) as [w0 c] eqn:Hnew.
      destruct (new_client_spec _ _ _ Hnew Hinv) as (? & ? & _ & _ & ?).
      by exists w0, (Register c).
    - by exists w, (Unregister c).
    - by exists w, (Broadcast m). }
  destruct (hub_step_safe ev w0 Hinv0 Hreg)
    as (w1 & e & Hstep & Hinv1 & Hopen & Hclosed & Hlast & _ & Hshut).
  exists w1, e. simpl. repeat split; try done.
  - intros c Ht Hs. apply (queue_shut_not_open w0 c); [by apply Hshut0|by apply Hopen].
  - intros c Hs. by apply Hshut, Hshut0.
Qed.

(** On every sequence of requests of the program the coordinator runs to
    the end without a panic, keeps the queues of its live clients open,
    never operates on a queue that was closed, and after closing a queue
    neither closes it again nor sends on it. *)
Lemma serve_safe reqs w :
  hub_inv w →
  ∃ w' tr, serve reqs w = Ok (w', tr)
    ∧ hub_inv w'
    ∧ (∀ c, touches c (log_of tr) → ¬ queue_shut w c)
    ∧ (∀ c l1 l2, log_of tr = l1 ++ ChanClose c :: l2 → ¬ touches c l2).
Proof.
  revert w. induction reqs as [|r reqs IH]; intros w Hinv.
  { exists w, []. split; [done|]. split; [done|]. split.
    - intros c [H|[m H]]; by apply elem_of_nil in H.
    - intros c l1 l2 H. by destruct l1. }
  destruct (request_step_safe r w Hinv)
    as (w1 & e & Hstep & Hinv1 & Hopen & Hclosed & Hlast & Hshut).
  simpl. destruct (request_event r w) as [w0 ev]. simpl in Hstep. rewrite Hstep.
  destruct (IH w1 Hinv1) as (w' & tr & Hrun & Hinv' & Hopen' & Hlast').
  rewrite Hrun. eexists _, _. split; [reflexivity|]. split; [done|].
  unfold log_of in *. simpl. split.
  - intros c Ht. apply touches_app in Ht as [Ht|Ht]; [by apply Hopen|].
    intros Hs. by apply (Hopen' c Ht), Hshut.
  - intros c l1 l2 Heq. apply app_eq_app in Heq as [l [[He Hl]|[Hl1 Hl]]].
    + destruct l as [|x l]; simpl in Hl.
      * by apply (Hlast' c [] l2).
      * injection Hl as <- ->. intros Ht. apply touches_app in Ht as [Ht|Ht].
        -- by apply (Hlast c l1 l).
        -- apply (Hopen' c Ht), Hclosed.
           rewrite He. apply elem_of_app. right. by left.
    + by apply (Hlast' c l l2).
Qed.

(** The trace of a run has one turn for every event, in the order of the
    events. *)
Lemma run_events evs w w' tr : run evs w = Ok (w', tr) → tr.*1 = evs.
Proof.
  revert w tr. induction evs as [|ev evs IH]; intros w tr Hrun; simpl in Hrun.
  { by simplify_eq. }
  destruct (hub_step ev w) as [[w1 e]|] eqn:Hstep; [|done].
  destruct (run evs w1) as [[w2 tr']|] eqn:Hrun'; [|done]. simplify_eq.
  simpl. f_equal. by eapply IH.
Qed.

(** What a register turn and an unregister turn do to the map. *)
Lemma run_turns evs w w' tr :
  run evs w = Ok (w', tr) →
  Forall (λ s, ∀ c, (s.1 = Register c → s.2 = [MapInsert c; LogLine])
                  ∧ (MapInsert c ∈ s.2 → s.1 = Register c)
                  ∧ (MapDelete c ∈ s.2 → s.1 = Unregister c ∨ ∃ m, s.1 = Broadcast m)) tr.
Proof.
  revert w tr. induction evs as [|ev evs IH]; intros w tr Hrun; simpl in Hrun.
  { simplify_eq. constructor. }
  destruct (hub_step ev w) as [[w1 e]|] eqn:Hstep; [|done].
  destruct (run evs w1) as [[w2 tr']|] eqn:Hrun'; [|done]. simplify_eq.
  constructor; [|by eapply IH]. intros c. simpl. destruct ev as [k|k|m]; simpl in Hstep.
  - unfold hub_register in Hstep. simplify_eq. split; [by intros [= ->]|]. split.
    + rewrite !elem_of_cons, elem_of_nil. intros [H|[H|[]]]; by simplify_eq.
    + rewrite !elem_of_cons, elem_of_nil. intros [H|[H|[]]]; by simplify_eq.
  - split; [done|].
    unfold hub_unregister in Hstep. destruct (clients w !! k).
    + destruct (send w !! k) as [ch|]; [|done]. destruct (Chan.close ch); [|done].
      simplify_eq. rewrite !elem_of_cons, !elem_of_nil.
      split; intros [H|[H|[H|[]]]]; simplify_eq. by left.
    + simplify_eq. split; by intros ?%elem_of_nil.
  - split; [done|]. split; [|right; eauto]. intros Hin.
    assert (∀ ks w0 w3 e0, fan_out m ks w0 = Ok (w3, e0) → MapInsert c ∉ e0) as Hno.
    { clear. induction ks as [|k ks IH]; intros w0 w3 e0 Hrun; simpl in Hrun.
      { simplify_eq. by intros ?%elem_of_nil. }
      destruct (clients w0 !! k); [|by eapply IH].
      destruct (fan_out_one m k w0) as [[w1 e1]|] eqn:H1; [|done].
      destruct (fan_out m ks w1) as [[w2 e2]|] eqn:H2; [|done]. simplify_eq.
      rewrite elem_of_app. intros [Hin|Hin]; [|by eapply IH].
      destruct (fan_out_one_clients _ _ _ _ _ H1) as [[_ ->]|[_ ->]];
        rewrite !elem_of_cons, elem_of_nil in Hin;
        repeat (destruct Hin as [Hin|Hin]; try done). }
    by apply Hno in Hstep.
Qed.

(** * The claims about the coordinator *)

(** The saturated coordinator is reached from newHub: the entry registers
    and 256 messages are broadcast while its Writer takes none. *)
Lemma saturated_world_reachable :
  ∃ tr, run (Register 1 :: map Broadcast (repeat [Byte.x68; Byte.x69] 256))
            (newHub {[ 1%positive := Chan.make sendBuffer ]})
        = Ok (saturated_world, tr).
Proof. eexists. vm_compute. reflexivity. Qed.

(** C1, as stated, fails: the message broadcast to the saturated coordinator
    is not enqueued onto the queue of its live client; the queue is closed
    with its 256 messages and the client leaves the map. *)
Lemma broadcast_skips_full_queue :
  live saturated_world 1
  ∧ hub_broadcast [Byte.x21] saturated_world
    = Ok ({| clients := ∅; send := {[ 1%positive := shut full_queue ]} |},
          [ChanClose 1; MapDelete 1]).
Proof. split; [by exists true|]. vm_compute. reflexivity. Qed.

(** C1 (amended): a broadcast message is enqueued onto the queue of every
    client of the live set whose queue is not full, the sender's included
    (the coordinator does not know the sender), and such a client stays in
    the live set; after successive broadcasts every surviving client holds
    what it held before followed by the messages in the order the
    coordinator processed them. *)
Theorem broadcast_fan_out (w : World) (m : msg) (ms : list msg) :
  hub_inv w →
  (∃ w' e, hub_broadcast m w = Ok (w', e)
     ∧ ∀ c ch, live w c → send w !! c = Some ch → Chan.full ch = false →
         live w' c ∧ send w' !! c = Some (enqueued [m] ch) ∧ ChanSend c m ∈ e)
  ∧ (∃ w' tr, run (map Broadcast ms) w = Ok (w', tr)
     ∧ ∀ c, live w' c →
         live w c ∧ ∃ ch, send w !! c = Some ch ∧ send w' !! c = Some (enqueued ms ch)).
Proof.
  intros Hinv. split.
  - destruct (hub_broadcast_spec m w Hinv) as (w' & Hrun & _ & _ & Hin).
    exists w'. eexists. split; [exact Hrun|]. intros c ch Hl Hs Hf.
    specialize (Hin c ch Hl Hs). rewrite Hf in Hin. destruct Hin as [Hc Hs'].
    split; [|split]; [|done|by eapply fan_out_effects_send].
    unfold live. by rewrite Hc.
  - destruct (run_broadcasts ms w Hinv) as (w' & tr & Hrun & _ & Hsurv & _).
    by exists w', tr.
Qed.

Lemma two_clients_inv : hub_inv two_clients.
Proof.
  intros c [b Hc]. unfold two_clients, queue_open in *. simpl in *.
  destruct (decide (c = 1%positive)) as [->|H1].
  { exists full_queue. by rewrite lookup_insert_eq. }
  destruct (decide (c = 2%positive)) as [->|H2].
  { exists (Chan.make sendBuffer). rewrite lookup_insert_ne by done.
    by rewrite lookup_singleton_eq. }
  rewrite lookup_insert_ne, lookup_singleton_ne in Hc by done. done.
Qed.

Lemma broadcast_fan_out_witness :
  hub_inv two_clients
  ∧ (∃ w' e, hub_broadcast [Byte.x21] two_clients = Ok (w', e)
     ∧ ∀ c ch, live two_clients c → send two_clients !! c = Some ch →
         Chan.full ch = false →
         live w' c ∧ send w' !! c = Some (enqueued [[Byte.x21]] ch)
         ∧ ChanSend c [Byte.x21] ∈ e).
Proof.
  split; [exact two_clients_inv|].
  exact (proj1 (broadcast_fan_out two_clients [Byte.x21] [] two_clients_inv)).
Defined.

(** The coordinator with two full queues is reached from newHub: two
    connections are made and 256 messages are published while neither
    Writer takes any. *)
Lemma two_full_reachable :
  ∃ tr, serve (Connect :: Connect :: repeat (Publish [Byte.x68; Byte.x69]) 256)
              (newHub ∅)
        = Ok (two_full, tr).
Proof. eexists. vm_compute. reflexivity. Qed.

(** C2, as stated, fails: when client 1 has a full queue and is evicted,
    client 2 is another connection in the live set, but its queue is full
    too: it does not get the message, it is evicted in the same turn. *)
Lemma broadcast_evicts_every_full_queue :
  live two_full 1 ∧ live two_full 2
  ∧ hub_broadcast [Byte.x21] two_full
    = Ok ({| clients := ∅;
             send := {[ 1%positive := shut full_queue; 2%positive := shut full_queue ]} |},
          [ChanClose 2; MapDelete 2; ChanClose 1; MapDelete 1]).
Proof. split; [by exists true|]. split; [by exists true|]. vm_compute. reflexivity. Qed.

(** C2 (amended): a client whose queue is full when a message is fanned out
    has its queue closed (with what it held) and leaves the live set in that
    same turn; the turn completes; every other client whose queue is not
    full stays in the live set with the message at the end of its queue (a
    client whose queue is full is evicted as well), and every client left in
    the live set has the message at the end of its queue.  A queue made by
    serveWs is full once it holds 256 messages. *)
Theorem backpressure_eviction (w : World) (m : msg) (c : Client) (ch : Chan.t) :
  hub_inv w → live w c → send w !! c = Some ch → Chan.full ch = true →
  (∃ w' e, hub_broadcast m w = Ok (w', e)
     ∧ ¬ live w' c
     ∧ send w' !! c = Some (shut ch)
     ∧ ChanClose c ∈ e ∧ MapDelete c ∈ e ∧ (∀ m', ChanSend c m' ∉ e)
     ∧ (∀ c', live w' c' →
          ∃ ch', send w !! c' = Some ch' ∧ send w' !! c' = Some (enqueued [m] ch'))
     ∧ (∀ c' ch', c' ≠ c → live w c' → send w !! c' = Some ch' →
          Chan.full ch' = false →
          live w' c' ∧ send w' !! c' = Some (enqueued [m] ch')))
  ∧ (∀ ms, Chan.full (enqueued ms (Chan.make sendBuffer)) = (256 <=? length ms)%nat).
Proof.
  intros Hinv Hl Hs Hf. split; [|done].
  destruct (hub_broadcast_spec m w Hinv) as (w' & Hrun & _ & Hout & Hin).
  exists w'. eexists. split; [exact Hrun|].
  pose proof (Hin c ch Hl Hs) as Hc. rewrite Hf in Hc. destruct Hc as [Hc Hs'].
  destruct (fan_out_effects_evict m w c ch (map_to_list (clients w)).*1)
    as (Hcl & Hdel & Hns); [by apply keys_live|done|done|].
  split. { intros [b Hb]. congruence. }
  split; [done|]. split; [done|]. split; [done|]. split; [done|]. split.
  - intros c' Hl'.
    assert (Hlc' : live w c').
    { destruct (clients w !! c') as [b|] eqn:Hb; [by exists b|].
      assert (Hn : ¬ live w c') by (intros [b' Hb']; congruence).
      destruct (Hout c' Hn) as [Hc1 _]. destruct Hl' as [b' Hb']. congruence. }
    destruct (Hinv c' Hlc') as (ch' & Hch' & _). exists ch'. split; [done|].
    specialize (Hin c' ch' Hlc' Hch'). destruct (Chan.full ch').
    + destruct Hin as [Hnone _]. destruct Hl' as [b' Hb']. congruence.
    + by destruct Hin.
  - intros c' ch' _ Hl' Hs1 Hf1. specialize (Hin c' ch' Hl' Hs1).
    rewrite Hf1 in Hin. destruct Hin as [Hc1 Hs1']. split; [|done].
    unfold live. by rewrite Hc1.
Qed.

Lemma backpressure_eviction_witness :
  ∃ w' e, hub_broadcast [Byte.x21] two_clients = Ok (w', e)
    ∧ ¬ live w' 1
    ∧ send w' !! 1%positive = Some (shut full_queue)
    ∧ live w' 2
    ∧ send w' !! 2%positive = Some (enqueued [[Byte.x21]] (Chan.make sendBuffer)).
Proof.
  destruct (backpressure_eviction two_clients [Byte.x21] 1 full_queue)
    as [(w' & e & Hrun & Hgone & Hshut & _ & _ & _ & _ & Hstay) _].
  - exact two_clients_inv.
  - by exists true.
  - reflexivity.
  - reflexivity.
  - exists w', e. split; [done|]. split; [done|]. split; [done|].
    apply (Hstay 2%positive (Chan.make sendBuffer)); [done|by exists true|done|done].
Defined.

(** C9: a register request for a client already in the live set succeeds,
    leaves the live set and its size as they were, changes no queue and
    performs no operation on any queue; when the client's entry holds true,
    as every entry the coordinator writes does, the whole state is
    unchanged. *)
Theorem register_idempotent (w : World) (c : Client) :
  live w c →
  ∃ w' e, hub_step (Register c) w = Ok (w', e)
    ∧ (∀ c', live w' c' ↔ live w c')
    ∧ size (clients w') = size (clients w)
    ∧ send w' = send w
    ∧ (∀ c', ¬ touches c' e)
    ∧ (clients w !! c = Some true → w' = w).
Proof.
  intros [b Hb]. eexists _, _. split; [reflexivity|]. simpl.
  split; [|split; [|split; [|split]]].
  - intros c'. unfold live. simpl. destruct (decide (c' = c)) as [->|Hne].
    + rewrite lookup_insert_eq, Hb. split; eauto.
    + by rewrite lookup_insert_ne.
  - by eapply map_size_insert_Some.
  - done.
  - intros c' [H|[m H]]; rewrite !elem_of_cons, elem_of_nil in H;
      by destruct H as [?|[?|[]]].
  - intros Ht. destruct w as [cl s]. simpl in *. f_equal. by apply insert_id.
Qed.

Lemma register_idempotent_witness :
  ∃ w' e, hub_step (Register 2) two_clients = Ok (w', e)
    ∧ size (clients w') = size (clients two_clients)
    ∧ send w' = send two_clients
    ∧ w' = two_clients.
Proof.
  destruct (register_idempotent two_clients 2) as (w' & e & Hrun & _ & Hsz & Hs & _ & Heq).
  - by exists true.
  - exists w', e. repeat split; try done. by apply Heq.
Defined.

(** C3, as stated, fails for a sequence that registers an entry again after
    its queue was closed: the next unregister closes the queue a second
    time, and the next broadcast sends on the closed queue; both are Go
    run-time panics. *)
Lemma reregistered_queue_closed_twice :
  run [Register 1; Unregister 1; Register 1; Unregister 1]
      (newHub {[ 1%positive := Chan.make sendBuffer ]})
  = Panic CloseOfClosedChannel
  ∧ run [Register 1; Unregister 1; Register 1; Broadcast [Byte.x21]]
        (newHub {[ 1%positive := Chan.make sendBuffer ]})
    = Panic SendOnClosedChannel.
Proof. split; vm_compute; reflexivity. Qed.

(** C3 (amended): from a state whose live clients have open queues, on
    every sequence of register, unregister and broadcast requests in which
    no entry is registered while its queue is closed, the coordinator runs
    to the end; it operates only on queues that were open at the start;
    after it closed the queue of an entry it neither closes that queue again
    nor enqueues onto it; and in the state it reaches an unregister request
    succeeds and a second one for the same entry changes nothing and has no
    effect. *)
Theorem queue_closed_once (evs : list HubEvent) (w : World) (c : Client) :
  hub_inv w → registers_open evs w →
  ∃ w' tr, run evs w = Ok (w', tr)
    ∧ (touches c (log_of tr) → queue_open w c)
    ∧ (∀ l1 l2, log_of tr = l1 ++ ChanClose c :: l2 →
         (ChanClose c ∉ l2) ∧ (∀ m, ChanSend c m ∉ l2))
    ∧ (∃ w1 e1, hub_step (Unregister c) w' = Ok (w1, e1)
         ∧ hub_step (Unregister c) w1 = Ok (w1, [])).
Proof.
  intros Hinv Hreg.
  destruct (run_safe evs w Hinv Hreg) as (w' & tr & Hrun & Hinv' & Hopen & Hlast).
  exists w', tr. split; [done|]. split; [|split].
  - apply Hopen.
  - intros l1 l2 Heq. specialize (Hlast c l1 l2 Heq). split.
    + intros H. apply Hlast. by left.
    + intros m H. apply Hlast. right. eauto.
  - destruct (hub_step_safe (Unregister c) w' Hinv' I) as (w1 & e1 & Hstep & _).
    exists w1, e1. split; [done|]. by eapply hub_unregister_twice.
Qed.

Lemma newHub_inv chans : hub_inv (newHub chans).
Proof. intros c [b Hb]. simpl in Hb. by rewrite lookup_empty in Hb. Qed.

Lemma queue_closed_once_witness :
  ∃ w' tr, run churn (newHub two_fresh_queues) = Ok (w', tr)
    ∧ (∀ l1 l2, log_of tr = l1 ++ ChanClose 1 :: l2 →
         (ChanClose 1 ∉ l2) ∧ (∀ m, ChanSend 1 m ∉ l2)).
Proof.
  destruct (queue_closed_once churn (newHub two_fresh_queues) 1)
    as (w' & tr & Hrun & _ & Hlast & _).
  - apply newHub_inv.
  - vm_compute. repeat split; eexists; (split; [reflexivity|reflexivity]).
  - by exists w', tr.
Defined.

(** In the program the hypotheses above always hold: register requests
    come from serveWs alone, for a client it has just made.  Started by
    newHub, on every sequence of requests the program can send, and also
    when unregister requests are repeated or name unknown clients, the
    coordinator never panics, closes no queue twice and sends on no closed
    queue. *)
Lemma program_closes_once (reqs : list Request) (chans : gmap positive Chan.t)
    (c : Client) :
  ∃ w tr, serve reqs (newHub chans) = Ok (w, tr)
    ∧ hub_inv w
    ∧ (∀ l1 l2, log_of tr = l1 ++ ChanClose c :: l2 →
         (ChanClose c ∉ l2) ∧ (∀ m, ChanSend c m ∉ l2)).
Proof.
  destruct (serve_safe reqs (newHub chans) (newHub_inv chans))
    as (w & tr & Hrun & Hinv & _ & Hlast).
  exists w, tr. split; [done|]. split; [done|].
  intros l1 l2 Heq. specialize (Hlast c l1 l2 Heq). split.
  - intros H. apply Hlast. by left.
  - intros m H. apply Hlast. right. eauto.
Qed.

(** * Properties of the Reader and of the Writer *)

(** ** The Reader *)

Lemma read_loop_forward c pre rest :
  Forall (λ i, read_fails i = false) pre →
  read_loop c (pre ++ rest)
  = (flat_map (forwarded c) pre ++ (read_loop c rest).1, (read_loop c rest).2).
Proof.
  induction 1 as [|i pre Hi _ IH]; simpl.
  { by destruct (read_loop c rest). }
  destruct i as [now|p|err]; simpl in *.
  - rewrite IH. reflexivity.
  - change (0 <? readLimit) with true. unfold readLimit. simpl. rewrite Hi, IH.
    reflexivity.
  - done.
Qed.

Lemma read_loop_fail c bad rest :
  read_fails bad = true → read_loop c (bad :: rest) = (diagnostics bad, Returned).
Proof.
  destruct bad as [now|p|err]; simpl; intros Hf; [done| |done].
  change (0 <? readLimit) with true. unfold readLimit. simpl. by rewrite Hf.
Qed.

Lemma read_loop_effects c inc : Forall (reader_effect c) (read_loop c inc).1.
Proof.
  induction inc as [|i inc IH]; simpl; [constructor|].
  destruct i as [now|p|err]; simpl.
  - destruct (read_loop c inc) as [e st]. simpl in *. by constructor.
  - destruct (readLimit <? Z.of_nat (length p)); simpl.
    + constructor.
    + destruct (read_loop c inc) as [e st]. simpl in *. by constructor.
  - destruct (IsUnexpectedCloseError _ _); repeat constructor.
Qed.

Lemma readPump_effects c now0 inc : Forall (reader_effect c) (readPump c now0 inc).1.
Proof.
  unfold readPump. pose proof (read_loop_effects c inc) as H.
  destruct (read_loop c inc) as [e st]. simpl in *.
  repeat (constructor; [done|]). apply Forall_app. split; [done|].
  destruct st; repeat constructor.
Qed.

Lemma forwarded_no_unregister c pre :
  Forall (λ i, read_fails i = false) pre →
  List.filter is_unregister_request (flat_map (forwarded c) pre) = [].
Proof.
  induction 1 as [|i pre Hi _ IH]; [done|]. simpl. rewrite List.filter_app, IH.
  by destruct i.
Qed.

Lemma diagnostics_no_unregister bad :
  List.filter is_unregister_request (diagnostics bad) = [].
Proof.
  destruct bad as [now|p|err]; try done. simpl.
  by destruct (IsUnexpectedCloseError _ _).
Qed.

(** An unregister request concerns the entry it names only. *)
Lemma hub_unregister_frame c w w' e c' :
  hub_step (Unregister c) w = Ok (w', e) → c' ≠ c →
  clients w' !! c' = clients w !! c' ∧ send w' !! c' = send w !! c'.
Proof.
  simpl. unfold hub_unregister. intros Hstep Hne.
  destruct (clients w !! c); [|by simplify_eq].
  destruct (send w !! c) as [ch|]; [|done]. destruct (Chan.close ch); [|done].
  simplify_eq. simpl. by rewrite lookup_delete_ne, lookup_insert_ne.
Qed.

(** ** The Writer *)

Lemma drain_all c rest n cl :
  drain c (length rest) {| Chan.buf := rest; Chan.cap := n; Chan.closed := cl |}
  = Some (flat_map (λ x, [WriterWrite c newline; ChanRecv c x; WriterWrite c x]) rest,
          {| Chan.buf := []; Chan.cap := n; Chan.closed := cl |}).
Proof.
  induction rest as [|x rest IH]; [done|]. simpl. unfold Chan.recv. simpl.
  by rewrite IH.
Qed.

Lemma write_turn_batch c now closeOk m rest n cl :
  write_turn c (WakeSend now true closeOk)
    {| Chan.buf := m :: rest; Chan.cap := n; Chan.closed := cl |}
  = (batch c now m rest,
     {| Chan.buf := []; Chan.cap := n; Chan.closed := cl |},
     if closeOk then Continue else Return).
Proof.
  unfold write_turn, Chan.recv, Chan.len. simpl. by rewrite drain_all.
Qed.

Lemma received_app l1 l2 : received (l1 ++ l2) = received l1 ++ received l2.
Proof.
  induction l1 as [|e l1 IH]; [done|]. destruct e; simpl; by rewrite ?IH.
Qed.

Lemma written_app l1 l2 : written (l1 ++ l2) = written l1 ++ written l2.
Proof.
  induction l1 as [|e l1 IH]; [done|].
  destruct e; simpl; rewrite ?IH; try done. by rewrite app_assoc.
Qed.

Lemma written_batch c now m rest : written (batch c now m rest) = joined m rest.
Proof.
  unfold batch, joined. simpl. f_equal.
  induction rest as [|x rest IH]; [done|]. simpl. by rewrite IH.
Qed.

Lemma received_batch c now m rest : received (batch c now m rest) = m :: rest.
Proof.
  unfold batch. simpl. f_equal. rewrite received_app. simpl. rewrite app_nil_r.
  induction rest as [|x rest IH]; [done|]. simpl. by rewrite IH.
Qed.

Lemma received_probes c ts : received (probes c ts) = [].
Proof. induction ts as [|t ts IH]; [done|]. exact IH. Qed.

Lemma write_turn_cases c wk ch :
  let '(e, ch', t) := write_turn c wk ch in
  t ≠ Stuck
  ∧ Forall (writer_effect c) e
  ∧ received e ++ Chan.buf ch' = Chan.buf ch
  ∧ Chan.closed ch' = Chan.closed ch.
Proof.
  destruct wk as [now nw cl|now ok].
  - destruct ch as [[|m rest] n closed].
    + unfold write_turn, Chan.recv. simpl. destruct closed; simpl.
      * repeat split; [done|]. by repeat constructor.
      * by repeat split.
    + destruct nw.
      * rewrite write_turn_batch. split; [by destruct cl|]. split; [|split; [|done]].
        -- unfold batch. repeat (constructor; [done|]). apply Forall_app. split.
           ++ apply Forall_flat_map, Forall_forall. intros x _. by repeat constructor.
           ++ by repeat constructor.
        -- by rewrite received_batch, app_nil_r.
      * unfold write_turn, Chan.recv. simpl. repeat split; [done|]. by repeat constructor.
  - simpl. split; [by destruct ok|]. split; [by repeat constructor|done].
Qed.

Lemma write_loop_cases c wakes ch :
  Forall (writer_effect c) (write_loop c wakes ch).1.1
  ∧ received (write_loop c wakes ch).1.1 ++ Chan.buf (write_loop c wakes ch).1.2
    = Chan.buf ch
  ∧ Chan.closed (write_loop c wakes ch).1.2 = Chan.closed ch.
Proof.
  revert ch. induction wakes as [|wk wakes IH]; intros ch; simpl; [by repeat split|].
  pose proof (write_turn_cases c wk ch) as Ht.
  destruct (write_turn c wk ch) as [[e ch1] t].
  destruct Ht as (Hns & He & Hrecv & Hcl). destruct t; simpl; [|done|done].
  destruct (IH ch1) as (He' & Hrecv' & Hcl').
  destruct (write_loop c wakes ch1) as [[e' ch2] st]. simpl in *.
  split; [by apply Forall_app|]. split.
  - by rewrite received_app, <- app_assoc, Hrecv', Hrecv.
  - by rewrite Hcl', Hcl.
Qed.

Lemma write_loop_ticks c ts rest ch :
  write_loop c (ticks ts ++ rest) ch
  = (probes c ts ++ (write_loop c rest ch).1.1,
     (write_loop c rest ch).1.2, (write_loop c rest ch).2).
Proof.
  induction ts as [|t ts IH]; simpl.
  { by destruct (write_loop c rest ch) as [[? ?] ?]. }
  rewrite IH. reflexivity.
Qed.

(** A failed probe ends the loop, if nothing ended it before. *)
Lemma write_loop_failed_probe c pre now post ch :
  (write_loop c (pre ++ WakeTick now false :: post) ch).2 = Returned.
Proof.
  revert ch. induction pre as [|wk pre IH]; intros ch; simpl; [done|].
  pose proof (write_turn_cases c wk ch) as Ht.
  destruct (write_turn c wk ch) as [[e ch1] t]. destruct Ht as (Hns & _).
  destruct t; [|done|done]. specialize (IH ch1).
  by destruct (write_loop c _ ch1) as [[? ?] ?].
Qed.

Lemma writePump_effects c wakes ch : Forall (writer_effect c) (writePump c wakes ch).1.1.
Proof.
  unfold writePump. destruct (write_loop_cases c wakes ch) as (He & _).
  destruct (write_loop c wakes ch) as [[body ch'] st]. simpl in *.
  constructor; [done|]. apply Forall_app. split; [done|].
  destruct st; by repeat constructor.
Qed.

(** A Writer that waits at its select goes on with the next wake-ups from
    the queue it left. *)
Lemma write_loop_app c pre more ch e ch1 :
  write_loop c pre ch = (e, ch1, Waiting) →
  write_loop c (pre ++ more) ch
  = (e ++ (write_loop c more ch1).1.1, (write_loop c more ch1).1.2,
     (write_loop c more ch1).2).
Proof.
  revert ch e. induction pre as [|wk pre IH]; intros ch e; simpl.
  { intros [= <- <-]. by destruct (write_loop c more ch) as [[? ?] ?]. }
  pose proof (write_turn_cases c wk ch) as H.
  destruct (write_turn c wk ch) as [[e0 ch0] t]. destruct H as (Hns & _).
  destruct t; [| done | done].
  destruct (write_loop c pre ch0) as [[e' ch2] st] eqn:Hloop. intros [= <- <- ->].
  rewrite (IH ch0 e' Hloop). simpl. by rewrite app_assoc.
Qed.

(** On an empty queue the Writer takes and writes no message. *)
Lemma write_loop_empty c wakes ch :
  Chan.buf ch = [] →
  written (write_loop c wakes ch).1.1 = []
  ∧ received (write_loop c wakes ch).1.1 = []
  ∧ Chan.buf (write_loop c wakes ch).1.2 = [].
Proof.
  revert ch. induction wakes as [|wk wakes IH]; intros ch Hbuf; simpl; [done|].
  destruct wk as [now nw cl|now ok]; simpl.
  - unfold Chan.recv. rewrite Hbuf. destruct (Chan.closed ch); simpl; [done|].
    specialize (IH ch Hbuf). by destruct (write_loop c wakes ch) as [[? ?] ?].
  - destruct ok; simpl; [|done].
    specialize (IH ch Hbuf). by destruct (write_loop c wakes ch) as [[? ?] ?].
Qed.

(** A Writer woken by its queue, after any successful probes, on a
    connection that gives it a message writer. *)
Lemma write_loop_batch c ts now closeOk more m rest n cl :
  write_loop c (ticks ts ++ WakeSend now true closeOk :: more)
    {| Chan.buf := m :: rest; Chan.cap := n; Chan.closed := cl |}
  = if closeOk
    then (probes c ts ++ batch c now m rest
            ++ (write_loop c more
                  {| Chan.buf := []; Chan.cap := n; Chan.closed := cl |}).1.1,
          (write_loop c more {| Chan.buf := []; Chan.cap := n; Chan.closed := cl |}).1.2,
          (write_loop c more {| Chan.buf := []; Chan.cap := n; Chan.closed := cl |}).2)
    else (probes c ts ++ batch c now m rest,
          {| Chan.buf := []; Chan.cap := n; Chan.closed := cl |}, Returned).
Proof.
  rewrite write_loop_ticks.
  change (write_loop c (WakeSend now true closeOk :: more) ?q)
    with (match write_turn c (WakeSend now true closeOk) q with
          | (e, ch1, Continue) =>
              let '(e', ch2, st) := write_loop c more ch1 in (e ++ e', ch2, st)
          | (e, ch1, Return) => (e, ch1, Returned)
          | (e, ch1, Stuck) => (e, ch1, Waiting)
          end).
  rewrite write_turn_batch. destruct closeOk; simpl; [|done].
  by destruct (write_loop c more _) as [[? ?] ?].
Qed.

Lemma written_probes c ts : written (probes c ts) = [].
Proof. induction ts as [|t ts IH]; [done|]. exact IH. Qed.

(** * The claims about the Reader and the Writer *)

(** C5: when a read fails — ReadMessage returns an error (timeout, protocol
    error, close by the peer, ...) or the message is longer than 512 bytes —
    after items that did not fail, the Reader has forwarded those items,
    leaves its loop, sends one unregister request for its own entry and
    closes its own connection, and reads nothing more.  All its effects are
    on its own connection or requests to the coordinator, and the
    coordinator's handling of that request changes no other entry. *)
Theorem reader_failure (c : Client) (now0 : Z) (pre : list Incoming)
    (bad : Incoming) (rest : list Incoming) :
  Forall (λ i, read_fails i = false) pre → read_fails bad = true →
  readPump c now0 (pre ++ bad :: rest)
  = ([SetReadLimit c 512; SetReadDeadline c (now0 + 60 * Second); SetPongHandler c]
       ++ flat_map (forwarded c) pre
       ++ diagnostics bad
       ++ [SendUnregister c; ConnClose c],
     Returned)
  ∧ List.filter is_unregister_request (readPump c now0 (pre ++ bad :: rest)).1
    = [SendUnregister c]
  ∧ Forall (reader_effect c) (readPump c now0 (pre ++ bad :: rest)).1
  ∧ (∀ w w' e c', hub_step (Unregister c) w = Ok (w', e) → c' ≠ c →
       clients w' !! c' = clients w !! c' ∧ send w' !! c' = send w !! c').
Proof.
  intros Hpre Hbad.
  assert (Heq : readPump c now0 (pre ++ bad :: rest)
          = ([SetReadLimit c 512; SetReadDeadline c (now0 + 60 * Second); SetPongHandler c]
               ++ flat_map (forwarded c) pre ++ diagnostics bad
               ++ [SendUnregister c; ConnClose c], Returned)).
  { unfold readPump. rewrite (read_loop_forward c pre _ Hpre), (read_loop_fail c bad rest Hbad).
    simpl. by rewrite <- app_assoc. }
  split; [done|]. split; [|split].
  - rewrite Heq. simpl. rewrite !List.filter_app.
    by rewrite (forwarded_no_unregister c pre Hpre), diagnostics_no_unregister.
  - apply readPump_effects.
  - intros w w' e c'. apply hub_unregister_frame.
Qed.

Lemma reader_failure_witness :
  readPump 7 100 ([InData [Byte.x68; Byte.x69]; InPong 200]
                    ++ InData (repeat Byte.x61 513) :: [InData [Byte.x21]])
  = ([SetReadLimit 7 512; SetReadDeadline 7 (100 + 60 * Second); SetPongHandler 7;
      SendBroadcast [Byte.x68; Byte.x69]; SetReadDeadline 7 (200 + 60 * Second);
      SendUnregister 7; ConnClose 7],
     Returned).
Proof.
  apply (reader_failure 7 100 [InData [Byte.x68; Byte.x69]; InPong 200]
           (InData (repeat Byte.x61 513)) [InData [Byte.x21]]).
  - repeat constructor.
  - reflexivity.
Defined.

(** C6, as stated, fails on a connection that gives no message writer:
    woken by a queue holding two messages, the Writer takes the first one,
    NextWriter fails, and it returns: nothing is written, the message taken
    is lost and the other one stays in the queue. *)
Lemma writer_drops_message_without_writer :
  write_turn 7 (WakeSend 5 false true) ab_queue
  = ([ChanRecv 7 [Byte.x61]; SetWriteDeadline 7 (5 + 10 * Second);
      NextWriter 7 TextMessage],
     {| Chan.buf := [[Byte.x62]]; Chan.cap := 256; Chan.closed := false |},
     Return)
  ∧ writePump 7 [WakeSend 5 false true] ab_queue
    = ([NewTicker 7 pingPeriod; ChanRecv 7 [Byte.x61];
        SetWriteDeadline 7 (5 + 10 * Second); NextWriter 7 TextMessage;
        TickerStop 7; ConnClose 7],
       {| Chan.buf := [[Byte.x62]]; Chan.cap := 256; Chan.closed := false |},
       Returned)
  ∧ written (writePump 7 [WakeSend 5 false true] ab_queue).1.1 = [].
Proof. repeat split; vm_compute; reflexivity. Qed.

(** C6 (amended): woken by a message, on a connection that gives it a
    message writer, the Writer writes that message and then exactly the
    messages the queue holds at that moment, each after a newline, in the
    order of the queue, and closes the message writer; the queue is left
    empty.  A run of the Writer that is woken by its queue, after any
    successful probes, has taken exactly the messages of the queue, in
    order, has written them in that order, and writes no other message
    whatever wakes it afterwards.  Over any number of turns the messages it
    takes, followed by what the queue still holds, are the queue's content
    in the order the coordinator appended it. *)
Theorem writer_coalesces (c : Client) (now : Z) (closeOk : bool)
    (m : msg) (rest : list msg) (n : nat) (cl : bool) :
  write_turn c (WakeSend now true closeOk)
    {| Chan.buf := m :: rest; Chan.cap := n; Chan.closed := cl |}
  = ([ChanRecv c m; SetWriteDeadline c (now + 10 * Second); NextWriter c TextMessage;
      WriterWrite c m]
       ++ flat_map (λ x, [WriterWrite c newline; ChanRecv c x; WriterWrite c x]) rest
       ++ [WriterClose c],
     {| Chan.buf := []; Chan.cap := n; Chan.closed := cl |},
     if closeOk then Continue else Return)
  ∧ written (write_turn c (WakeSend now true closeOk)
               {| Chan.buf := m :: rest; Chan.cap := n; Chan.closed := cl |}).1.1
    = m ++ flat_map (λ x, newline ++ x) rest
  ∧ (∀ ts more,
       (∃ e2, (writePump c (ticks ts ++ WakeSend now true closeOk :: more)
                 {| Chan.buf := m :: rest; Chan.cap := n; Chan.closed := cl |}).1.1
              = NewTicker c pingPeriod
                  :: probes c ts
                  ++ ([ChanRecv c m; SetWriteDeadline c (now + 10 * Second);
                       NextWriter c TextMessage; WriterWrite c m]
                      ++ flat_map
                           (λ x, [WriterWrite c newline; ChanRecv c x; WriterWrite c x])
                           rest
                      ++ [WriterClose c])
                  ++ e2
              ∧ written e2 = [] ∧ received e2 = [])
       ∧ written (writePump c (ticks ts ++ WakeSend now true closeOk :: more)
                    {| Chan.buf := m :: rest; Chan.cap := n; Chan.closed := cl |}).1.1
         = m ++ flat_map (λ x, newline ++ x) rest
       ∧ received (writePump c (ticks ts ++ WakeSend now true closeOk :: more)
                     {| Chan.buf := m :: rest; Chan.cap := n; Chan.closed := cl |}).1.1
         = m :: rest
       ∧ Chan.buf (writePump c (ticks ts ++ WakeSend now true closeOk :: more)
                     {| Chan.buf := m :: rest; Chan.cap := n; Chan.closed := cl |}).1.2
         = [])
  ∧ (∀ wakes ch,
       received (write_loop c wakes ch).1.1 ++ Chan.buf (write_loop c wakes ch).1.2
       = Chan.buf ch)
  ∧ (∀ ms ch, Chan.buf (enqueued ms ch) = Chan.buf ch ++ ms).
Proof.
  split; [apply write_turn_batch|]. split; [|split; [|split; [|done]]].
  - rewrite write_turn_batch. apply written_batch.
  - intros ts more.
    set (q := {| Chan.buf := m :: rest; Chan.cap := n; Chan.closed := cl |}).
    set (q0 := {| Chan.buf := []; Chan.cap := n; Chan.closed := cl |}).
    assert (∃ e2 ch2, writePump c (ticks ts ++ WakeSend now true closeOk :: more) q
              = (NewTicker c pingPeriod :: probes c ts ++ batch c now m rest ++ e2,
                 ch2, (writePump c (ticks ts ++ WakeSend now true closeOk :: more) q).2)
              ∧ written e2 = [] ∧ received e2 = [] ∧ Chan.buf ch2 = [])
      as (e2 & ch2 & Heq & Hw & Hr & Hb).
    { unfold writePump. subst q. rewrite write_loop_batch. fold q0.
      destruct closeOk.
      - destruct (write_loop_empty c more q0 eq_refl) as (Hw & Hr & Hb).
        destruct (write_loop c more q0) as [[e2 ch2] st]. cbn [fst snd] in *.
        exists (e2 ++ match st with
                      | Returned => [TickerStop c; ConnClose c]
                      | Waiting => []
                      end), ch2.
        split; [by rewrite <- !app_assoc|].
        rewrite written_app, received_app, Hw, Hr. by destruct st.
      - exists [TickerStop c; ConnClose c], q0. split; [|done].
        cbn [fst snd]. by rewrite <- !app_assoc. }
    rewrite Heq. cbn [fst snd]. split; [|split; [|split; [|done]]].
    + exists e2. done.
    + change (written (?x :: ?l)) with (written l).
      by rewrite !written_app, written_probes, written_batch, Hw, app_nil_r.
    + change (received (?x :: ?l)) with (received l).
      by rewrite !received_app, received_probes, received_batch, Hr, app_nil_r.
  - intros wakes ch. apply write_loop_cases.
Qed.

(** C7: the ticker period, 54 s, is shorter than the read deadline window,
    60 s, which the Reader sets when it starts and again on every pong that
    reaches it before a read fails.  A Writer that is at its select when
    its ticker fires sets a write deadline of 10 s and writes a ping, and
    goes on when that write succeeds; when it fails the Writer returns,
    stopping its ticker and closing the connection.  A run of the Writer
    that meets a failed ping has returned. *)
Theorem heartbeat :
  pingPeriod = 54000000000 ∧ pongWait = 60000000000 ∧ writeWait = 10000000000
  ∧ pingPeriod < pongWait
  ∧ (∀ c wakes ch,
       ∃ body, (writePump c wakes ch).1.1 = NewTicker c (54 * Second) :: body)
  ∧ (∀ c now0 inc,
       ∃ body, (readPump c now0 inc).1
               = SetReadLimit c 512 :: SetReadDeadline c (now0 + 60 * Second)
                   :: SetPongHandler c :: body)
  ∧ (∀ c now rest,
       (read_loop c (InPong now :: rest)).1
       = SetReadDeadline c (now + 60 * Second) :: (read_loop c rest).1)
  ∧ (∀ c now0 pre now rest,
       Forall (λ i, read_fails i = false) pre →
       (readPump c now0 (pre ++ InPong now :: rest)).1
       = [SetReadLimit c 512; SetReadDeadline c (now0 + 60 * Second); SetPongHandler c]
           ++ flat_map (forwarded c) pre
           ++ SetReadDeadline c (now + 60 * Second)
           :: (read_loop c rest).1
           ++ match (read_loop c rest).2 with
              | Returned => [SendUnregister c; ConnClose c]
              | Waiting => []
              end)
  ∧ (∀ c now ok ch,
       write_turn c (WakeTick now ok) ch
       = ([SetWriteDeadline c (now + 10 * Second); WriteMessage c PingMessage []],
          ch, if ok then Continue else Return))
  ∧ (∀ c pre now ok more ch e ch1,
       write_loop c pre ch = (e, ch1, Waiting) →
       writePump c (pre ++ WakeTick now ok :: more) ch
       = if ok
         then (NewTicker c (54 * Second)
                 :: (e ++ [SetWriteDeadline c (now + 10 * Second);
                           WriteMessage c PingMessage []]
                       ++ (write_loop c more ch1).1.1)
                 ++ match (write_loop c more ch1).2 with
                    | Returned => [TickerStop c; ConnClose c]
                    | Waiting => []
                    end,
               (write_loop c more ch1).1.2, (write_loop c more ch1).2)
         else (NewTicker c (54 * Second)
                 :: (e ++ [SetWriteDeadline c (now + 10 * Second);
                           WriteMessage c PingMessage []])
                 ++ [TickerStop c; ConnClose c],
               ch1, Returned))
  ∧ (∀ c pre now post ch,
       (writePump c (pre ++ WakeTick now false :: post) ch).2 = Returned).
Proof.
  repeat split; try done.
  - intros c wakes ch. unfold writePump.
    destruct (write_loop c wakes ch) as [[body ch'] st]. eauto.
  - intros c now0 inc. unfold readPump.
    destruct (read_loop c inc) as [body st]. simpl. eauto.
  - intros c now rest. simpl. by destruct (read_loop c rest).
  - intros c now0 pre now rest Hpre. unfold readPump.
    rewrite (read_loop_forward c pre _ Hpre). simpl.
    destruct (read_loop c rest) as [body st]. simpl. by rewrite <- !app_assoc.
  - intros c pre now ok more ch e ch1 Hpre. unfold writePump.
    rewrite (write_loop_app c pre _ ch e ch1 Hpre). simpl.
    destruct ok; simpl; [|done].
    by destruct (write_loop c more ch1) as [[e2 ch2] st].
  - intros c pre now post ch. unfold writePump.
    pose proof (write_loop_failed_probe c pre now post ch) as H.
    by destruct (write_loop c _ ch) as [[? ?] ?].
Qed.

(** A Writer that has just started and whose ticker fires: the write
    deadline is set and the ping is written. *)
Lemma heartbeat_witness :
  writePump 7 ([] ++ WakeTick 5 true :: []) ab_queue
  = ([NewTicker 7 (54 * Second); SetWriteDeadline 7 (5 + 10 * Second);
      WriteMessage 7 PingMessage []],
     ab_queue, Waiting)
  ∧ writePump 7 ([] ++ WakeTick 5 false :: []) ab_queue
    = ([NewTicker 7 (54 * Second); SetWriteDeadline 7 (5 + 10 * Second);
        WriteMessage 7 PingMessage []; TickerStop 7; ConnClose 7],
       ab_queue, Returned).
Proof.
  destruct heartbeat as (_ & _ & _ & _ & _ & _ & _ & _ & _ & Htick & _).
  split.
  - exact (Htick 7%positive [] 5 true [] ab_queue [] ab_queue eq_refl).
  - exact (Htick 7%positive [] 5 false [] ab_queue [] ab_queue eq_refl).
Defined.

(** C8: every effect of the Writer is an operation on its own connection,
    on its own ticker, or a receive from its own queue; it sends no
    unregister request and mutates no live set; it leaves its queue as
    open or closed as it found it; when it returns, for whatever reason,
    what it does last is to stop its ticker and close its own connection. *)
Theorem writer_frame (c : Client) (wakes : list Wake) (ch : Chan.t) :
  Forall (writer_effect c) (writePump c wakes ch).1.1
  ∧ Forall (λ e, is_unregister_request e = false ∧ mutates_live_set e = false)
      (writePump c wakes ch).1.1
  ∧ Chan.closed (writePump c wakes ch).1.2 = Chan.closed ch
  ∧ ((writePump c wakes ch).2 = Returned →
       (writePump c wakes ch).1.1
       = NewTicker c pingPeriod :: (write_loop c wakes ch).1.1
           ++ [TickerStop c; ConnClose c]).
Proof.
  split; [apply writePump_effects|]. split; [|split].
  - eapply Forall_impl; [apply writePump_effects|]. intros e He. by destruct e.
  - unfold writePump. destruct (write_loop_cases c wakes ch) as (_ & _ & Hcl).
    by destruct (write_loop c wakes ch) as [[body ch'] st].
  - unfold writePump. destruct (write_loop c wakes ch) as [[body ch'] st]. simpl.
    by intros ->.
Qed.

(** C10, as stated, fails on a connection whose writes fail: the queue is
    closed while it holds two messages; the Writer takes the first one,
    NextWriter fails, and it returns: the first message is lost, the second
    one is never written, and no close message is sent. *)
Lemma closed_queue_lost_on_failed_write :
  writePump 7 [WakeSend 5 false true; WakeSend 6 true true] ab_closed_queue
  = ([NewTicker 7 pingPeriod; ChanRecv 7 [Byte.x61];
      SetWriteDeadline 7 (5 + 10 * Second); NextWriter 7 TextMessage;
      TickerStop 7; ConnClose 7],
     {| Chan.buf := [[Byte.x62]]; Chan.cap := 256; Chan.closed := true |},
     Returned).
Proof. vm_compute. reflexivity. Qed.

(** C10 (amended): the Writer of a queue that was closed while it held
    messages, on a connection whose writes succeed, whatever successful probes come in
    between: woken by the queue it writes all the messages the queue held,
    in order, in one message; woken again it finds the queue empty and
    closed, writes the close message, stops its ticker and closes the
    connection.  Every message the queue held at its closure was written;
    the closure itself leaves the content of the queue as it was. *)
Theorem writer_drains_closed_queue (c : Client) (m : msg) (rest : list msg) (n : nat)
    (ts1 ts2 : list Z) (now1 now2 : Z) (nw cl : bool) (more : list Wake) :
  writePump c (ticks ts1 ++ WakeSend now1 true true
                 :: ticks ts2 ++ WakeSend now2 nw cl :: more)
    {| Chan.buf := m :: rest; Chan.cap := n; Chan.closed := true |}
  = (NewTicker c pingPeriod
       :: probes c ts1
       ++ ([ChanRecv c m; SetWriteDeadline c (now1 + 10 * Second);
            NextWriter c TextMessage; WriterWrite c m]
           ++ flat_map (λ x, [WriterWrite c newline; ChanRecv c x; WriterWrite c x]) rest
           ++ [WriterClose c])
       ++ probes c ts2
       ++ [SetWriteDeadline c (now2 + 10 * Second); WriteMessage c CloseMessage []]
       ++ [TickerStop c; ConnClose c],
     {| Chan.buf := []; Chan.cap := n; Chan.closed := true |},
     Returned)
  ∧ received (writePump c (ticks ts1 ++ WakeSend now1 true true
                             :: ticks ts2 ++ WakeSend now2 nw cl :: more)
                {| Chan.buf := m :: rest; Chan.cap := n; Chan.closed := true |}).1.1
    = m :: rest
  ∧ (∀ ch ch', Chan.close ch = Ok ch' →
       Chan.buf ch' = Chan.buf ch ∧ Chan.closed ch' = true).
Proof.
  assert (Hloop :
    write_loop c (ticks ts1 ++ WakeSend now1 true true
                    :: ticks ts2 ++ WakeSend now2 nw cl :: more)
      {| Chan.buf := m :: rest; Chan.cap := n; Chan.closed := true |}
    = (probes c ts1 ++ batch c now1 m rest ++ probes c ts2
         ++ [SetWriteDeadline c (now2 + 10 * Second); WriteMessage c CloseMessage []],
       {| Chan.buf := []; Chan.cap := n; Chan.closed := true |}, Returned)).
  { rewrite write_loop_ticks.
    change (write_loop c (WakeSend now1 true true :: ?l) ?ch)
      with (match write_turn c (WakeSend now1 true true) ch with
            | (e, ch1, Continue) =>
                let '(e', ch2, st) := write_loop c l ch1 in (e ++ e', ch2, st)
            | (e, ch1, Return) => (e, ch1, Returned)
            | (e, ch1, Stuck) => (e, ch1, Waiting)
            end).
    rewrite write_turn_batch, write_loop_ticks. simpl. by rewrite <- !app_assoc. }
  unfold writePump. rewrite Hloop. split; [|split].
  3:{ intros ch ch'. unfold Chan.close. destruct (Chan.closed ch); [done|].
      by intros [= <-]. }
  - unfold batch. simpl. repeat (rewrite <- app_assoc; simpl). reflexivity.
  - cbn [fst snd]. change (received (?x :: ?l)) with (received l).
    rewrite !received_app, !received_probes, received_batch. simpl.
    by rewrite !app_nil_r.
Qed.

(** * The live set *)

Lemma reader_never_mutates c now0 inc :
  Forall (λ e, mutates_live_set e = false) (readPump c now0 inc).1.
Proof.
  eapply Forall_impl; [apply readPump_effects|]. intros e He. by destruct e.
Qed.

Lemma writer_never_mutates c wakes ch :
  Forall (λ e, mutates_live_set e = false) (writePump c wakes ch).1.1.
Proof.
  eapply Forall_impl; [apply writePump_effects|]. intros e He. by destruct e.
Qed.

(** serveWs allocates an entry that is new, gives it an open queue of 256
    slots, and asks the coordinator to register it; it does not write the
    map itself. *)
Lemma serveWs_fresh w w' e c :
  serveWs true w = (w', e, Some c) →
  send w !! c = None
  ∧ send w' !! c = Some (Chan.make sendBuffer)
  ∧ queue_open w' c
  ∧ clients w' = clients w
  ∧ e = [SendRegister c].
Proof.
  unfold serveWs, new_client. intros [= <- <- <-]. simpl.
  split; [|split; [|split; [|done]]].
  - apply not_elem_of_dom, is_fresh.
  - by rewrite lookup_insert_eq.
  - exists (Chan.make sendBuffer). simpl. by rewrite lookup_insert_eq.
Qed.

(** C4: the coordinator takes a turn for every register, unregister and
    broadcast event, in the order of the events, and in every state it
    reaches from newHub a client is in the live set exactly when some turn
    processed a register event for it and no later turn processed an
    unregister event for it or evicted it for backpressure.  The map is
    written in those turns only: a register turn inserts its client and
    nothing else does, a delete happens in an unregister or broadcast turn;
    neither the Reader, nor the Writer, nor serveWs writes the map: they
    only send requests to the coordinator. *)
Theorem live_set_membership (evs : list HubEvent) (chans : gmap positive Chan.t)
    (w : World) (tr : list (HubEvent * list Effect)) (c : Client) :
  run evs (newHub chans) = Ok (w, tr) →
  tr.*1 = evs
  ∧ (live w c ↔
       ∃ pre e post, tr = pre ++ (Register c, e) :: post
                     ∧ Forall (λ s, ¬ removes c s) post)
  ∧ Forall (λ s, ∀ c', (s.1 = Register c' → s.2 = [MapInsert c'; LogLine])
                     ∧ (MapInsert c' ∈ s.2 → s.1 = Register c')
                     ∧ (MapDelete c' ∈ s.2 →
                          s.1 = Unregister c' ∨ ∃ m, s.1 = Broadcast m)) tr
  ∧ (∀ c' now0 inc, Forall (λ e, mutates_live_set e = false) (readPump c' now0 inc).1)
  ∧ (∀ c' wakes ch,
       Forall (λ e, mutates_live_set e = false) (writePump c' wakes ch).1.1)
  ∧ (∀ ok w0, clients (serveWs ok w0).1.1 = clients w0
              ∧ Forall (λ e, mutates_live_set e = false) (serveWs ok w0).1.2).
Proof.
  intros Hrun. split; [by eapply run_events|]. split; [|split; [|split; [|split]]].
  - rewrite (run_live _ _ _ _ c Hrun). split; [|by right].
    intros [[[b Hb] _]|H]; [|done]. simpl in Hb. by rewrite lookup_empty in Hb.
  - by eapply run_turns.
  - intros. apply reader_never_mutates.
  - intros. apply writer_never_mutates.
  - intros [|] w0; simpl; split; try done; by repeat constructor.
Qed.

(** On [lobby] (1 and 2 register, a message is broadcast, 1 unregisters):
    four turns, one per event, and client 2 is in the live set. *)
Lemma live_set_membership_witness :
  run lobby (newHub two_fresh_queues) = Ok (lobby_end.1, lobby_end.2)
  ∧ lobby_end.2.*1 = lobby
  ∧ live lobby_end.1 2.
Proof.
  assert (Hrun : run lobby (newHub two_fresh_queues) = Ok (lobby_end.1, lobby_end.2))
    by (vm_compute; reflexivity).
  destruct (live_set_membership lobby two_fresh_queues _ _ 2 Hrun)
    as (Hevs & Hlive & _).
  split; [exact Hrun|]. split; [exact Hevs|]. apply Hlive.
  exists [(Register 1, [MapInsert 1; LogLine])], [MapInsert 2; LogLine],
    [(Broadcast [Byte.x68; Byte.x69],
      [ChanSend 2 [Byte.x68; Byte.x69]; ChanSend 1 [Byte.x68; Byte.x69]]);
     (Unregister 1, [MapDelete 1; ChanClose 1; LogLine])].
  split; [vm_compute; reflexivity|].
  repeat constructor.
  - intros [H|(m & _ & H)]; [discriminate H|]. simpl in H.
    rewrite !elem_of_cons, elem_of_nil in H.
    destruct H as [H|[H|[]]]; discriminate H.
  - intros [H|(m & H & _)]; discriminate H.
Defined.

(** * Further properties of the coordinator *)

Lemma two_clients_live c : live two_clients c ↔ c = 1%positive ∨ c = 2%positive.
Proof.
  unfold live, two_clients. simpl. split.
  - intros [b Hb]. destruct (decide (c = 1%positive)) as [->|H1]; [by left|].
    destruct (decide (c = 2%positive)) as [->|H2]; [by right|].
    by rewrite lookup_insert_ne, lookup_singleton_ne in Hb.
  - intros [->| ->]; exists true.
    + by rewrite lookup_insert_eq.
    + rewrite lookup_insert_ne by done. by rewrite lookup_singleton_eq.
Qed.

(** X1: Go does not fix the order in which a range visits the keys of a
    map.  Whatever order the fan-out loop visits the live clients in, it
    ends in the same live set and the same queues as any other order, and
    performs the same operations up to their order. *)
Theorem range_order_irrelevant (m : msg) (ks : list Client) (w : World) :
  hub_inv w → NoDup ks → (∀ c, c ∈ ks ↔ live w c) →
  ∃ w' e e', fan_out m ks w = Ok (w', e)
    ∧ hub_broadcast m w = Ok (w', e')
    ∧ e ≡ₚ e'.
Proof.
  intros Hinv Hnd Hks.
  destruct (fan_out_order_irrelevant m ks w Hinv Hnd Hks) as (w' & e & e' & H1 & H2).
  exists w', e, e'. split; [done|]. split; [done|].
  destruct (fan_out_spec m ks w Hinv Hnd) as (w1 & Hrun1 & _).
  { intros c. apply Hks. }
  destruct (hub_broadcast_spec m w Hinv) as (w2 & Hrun2 & _).
  rewrite Hrun1 in H1. rewrite Hrun2 in H2. injection H1 as _ <-. injection H2 as _ <-.
  apply Permutation_flat_map, NoDup_Permutation; [done|apply NoDup_fst_map_to_list|].
  intros c. by rewrite Hks, keys_live.
Qed.

Lemma range_order_irrelevant_witness :
  ∃ w' e e', fan_out [Byte.x21] other_order two_clients = Ok (w', e)
    ∧ hub_broadcast [Byte.x21] two_clients = Ok (w', e')
    ∧ e ≡ₚ e'.
Proof.
  apply (range_order_irrelevant [Byte.x21] other_order two_clients).
  - exact two_clients_inv.
  - unfold other_order. apply NoDup_cons. split; [|apply NoDup_singleton].
    intros H. apply list_elem_of_singleton in H. discriminate H.
  - intros c. rewrite two_clients_live. unfold other_order.
    rewrite elem_of_cons, list_elem_of_singleton. tauto.
Defined.

(** ** The size of the queues *)




(** X7: registering a client that is not in the live set and then
    unregistering it gives back the live set as it was; but the client's
    queue is now closed (with its content), so the entry cannot serve
    again. *)
Theorem register_unregister_round_trip (w : World) (c : Client) (ch : Chan.t) :
  ¬ live w c → send w !! c = Some ch → Chan.closed ch = false →
  ∃ tr, run [Register c; Unregister c] w
        = Ok ({| clients := clients w; send := <[c := shut ch]> (send w) |}, tr).
Proof.
  intros Hn Hs Ho.
  assert (Hnone : clients w !! c = None).
  { destruct (clients w !! c) as [b|] eqn:Hb; [|done]. destruct Hn. by exists b. }
  simpl. unfold hub_unregister. simpl. rewrite lookup_insert_eq, Hs, (close_open _ Ho).
  rewrite (delete_insert_id _ _ _ Hnone). by eexists.
Qed.

Lemma register_unregister_round_trip_witness :
  ∃ tr, run [Register 1; Unregister 1] unregistered_client
        = Ok ({| clients := ∅;
                 send := <[1%positive := shut (Chan.make sendBuffer)]>
                           (send unregistered_client) |}, tr).
Proof.
  apply (register_unregister_round_trip unregistered_client 1 (Chan.make sendBuffer)).
  - intros [b Hb]. discriminate Hb.
  - reflexivity.
  - reflexivity.
Defined.

(** X8: a broadcast concerns the live clients only: a client that is not
    in the live set is not added to it, its queue is neither changed nor
    operated on, and no client joins the live set; with an empty live set
    the message is dropped and nothing at all changes. *)
Theorem broadcast_frame (w : World) (m : msg) :
  hub_inv w →
  ∃ w' e, hub_broadcast m w = Ok (w', e)
    ∧ (∀ c, ¬ live w c → ¬ live w' c ∧ send w' !! c = send w !! c ∧ ¬ touches c e)
    ∧ (∀ c, live w' c → live w c)
    ∧ (clients w = ∅ → w' = w ∧ e = []).
Proof.
  intros Hinv.
  destruct (hub_broadcast_spec m w Hinv) as (w' & Hrun & _ & Hout & Hin).
  exists w'. eexists. split; [exact Hrun|].
  assert (Hframe : ∀ c, ¬ live w c → ¬ live w' c ∧ send w' !! c = send w !! c).
  { intros c Hn. destruct (Hout c Hn) as [Hc Hs]. split; [|done].
    unfold live. by rewrite Hc. }
  split; [|split].
  - intros c Hn. destruct (Hframe c Hn) as [? ?]. split; [done|]. split; [done|].
    intros Ht. apply touches_fan_out_effects in Ht as [Hk _]. by apply keys_live in Hk.
  - intros c Hl'. destruct (clients w !! c) as [b|] eqn:Hb; [by exists b|].
    assert (Hn : ¬ live w c) by (intros [b' Hb']; congruence).
    by destruct (Hframe c Hn).
  - intros Hempty. unfold hub_broadcast in Hrun. rewrite Hempty in Hrun.
    rewrite map_to_list_empty in Hrun. simpl in Hrun. simplify_eq.
    by rewrite Hempty, map_to_list_empty.
Qed.

Lemma broadcast_frame_witness :
  ∃ w' e, hub_broadcast [Byte.x21] unregistered_client = Ok (w', e)
    ∧ w' = unregistered_client ∧ e = [].
Proof.
  destruct (broadcast_frame unregistered_client [Byte.x21])
    as (w' & e & Hrun & _ & _ & Hempty).
  - intros c [b Hb]. discriminate Hb.
  - exists w', e. split; [done|]. by apply Hempty.
Defined.

(** ** Closing and deleting *)

Lemma fan_out_close_delete m ks w w' e c :
  fan_out m ks w = Ok (w', e) → ChanClose c ∈ e ↔ MapDelete c ∈ e.
Proof.
  revert w w' e. induction ks as [|k ks IH]; intros w w' e Hrun; simpl in Hrun.
  { simplify_eq. split; by intros ?%elem_of_nil. }
  destruct (clients w !! k); [|by eapply IH].
  destruct (fan_out_one m k w) as [[w1 e1]|] eqn:H1; [|done].
  destruct (fan_out m ks w1) as [[w2 e2]|] eqn:H2; [|done]. simplify_eq.
  specialize (IH _ _ _ H2). rewrite !elem_of_app, IH.
  destruct (fan_out_one_clients _ _ _ _ _ H1) as [[_ ->]|[_ ->]];
    rewrite !elem_of_cons, !elem_of_nil; split;
    intros [H|H]; try (by right); left;
    repeat (destruct H as [H|H]; try done); simplify_eq; tauto.
Qed.

Lemma hub_step_close_delete ev w w1 e c :
  hub_step ev w = Ok (w1, e) → ChanClose c ∈ e ↔ MapDelete c ∈ e.
Proof.
  destruct ev as [k|k|m]; simpl.
  - intros [= <- <-]. rewrite !elem_of_cons, !elem_of_nil. split; intros [?|[?|[]]]; done.
  - unfold hub_unregister. destruct (clients w !! k).
    + destruct (send w !! k) as [ch|]; [|done]. destruct (Chan.close ch); [|done].
      intros [= <- <-]. rewrite !elem_of_cons, !elem_of_nil.
      split; intros [H|[H|[H|[]]]]; simplify_eq; tauto.
    + intros [= <- <-]. split; by intros ?%elem_of_nil.
  - apply fan_out_close_delete.
Qed.

(** X9: in every run of the coordinator, closing a client's queue and
    deleting the client from the live set go together: it never removes a
    client while leaving its queue open (the Writer of a removed client is
    always told), and never closes the queue of a client it keeps. *)
Theorem close_iff_delete (evs : list HubEvent) (w w' : World)
    (tr : list (HubEvent * list Effect)) (c : Client) :
  run evs w = Ok (w', tr) →
  Forall (λ step, ChanClose c ∈ step.2 ↔ MapDelete c ∈ step.2) tr
  ∧ (ChanClose c ∈ log_of tr ↔ MapDelete c ∈ log_of tr).
Proof.
  revert w tr. induction evs as [|ev evs IH]; intros w tr Hrun; simpl in Hrun.
  { simplify_eq. split; [constructor|]. split; by intros ?%elem_of_nil. }
  destruct (hub_step ev w) as [[w1 e]|] eqn:Hstep; [|done].
  destruct (run evs w1) as [[w2 tr']|] eqn:Hrun'; [|done]. simplify_eq.
  destruct (IH _ _ Hrun') as [Hall Hlog].
  pose proof (hub_step_close_delete _ _ _ _ c Hstep) as He.
  split; [by constructor|]. unfold log_of in *. simpl. rewrite !elem_of_app. tauto.
Qed.

Lemma close_iff_delete_witness :
  run lobby (newHub two_fresh_queues) = Ok (lobby_end.1, lobby_end.2)
  ∧ (ChanClose 1 ∈ log_of lobby_end.2 ↔ MapDelete 1 ∈ log_of lobby_end.2).
Proof.
  assert (Hrun : run lobby (newHub two_fresh_queues) = Ok (lobby_end.1, lobby_end.2))
    by (vm_compute; reflexivity).
  split; [exact Hrun|].
  exact (proj2 (close_iff_delete lobby (newHub two_fresh_queues) _ _ 1 Hrun)).
Defined.

(** ** How many broadcasts a queue takes *)

(** X11: a live client whose Writer takes nothing stays in the live set
    through a series of broadcasts exactly as long as the messages fit in
    the free slots of its queue: with an empty queue of 256 slots it
    survives 256 broadcasts and is evicted by the 257th. *)
Theorem survives_exactly_capacity (ms : list msg) (w : World) (c : Client) (ch : Chan.t) :
  hub_inv w → live w c → send w !! c = Some ch →
  (length (Chan.buf ch) ≤ Chan.cap ch)%nat →
  ∃ w' tr, run (map Broadcast ms) w = Ok (w', tr)
    ∧ (live w' c ↔ (length (Chan.buf ch) + length ms ≤ Chan.cap ch)%nat).
Proof.
  revert w ch. induction ms as [|m ms IH]; intros w ch Hinv Hl Hs Hlen.
  { exists w, []. split; [done|]. simpl. split; [lia|done]. }
  destruct (hub_broadcast_spec m w Hinv) as (w1 & Hrun1 & Hinv1 & _ & Hin).
  specialize (Hin c ch Hl Hs). simpl. rewrite Hrun1.
  destruct (Chan.full ch) eqn:Hf.
  - destruct Hin as [Hnone _].
    destruct (run_broadcasts ms w1 Hinv1) as (w' & tr & Hrun & _ & Hsurv & _).
    rewrite Hrun. eexists _, _. split; [reflexivity|].
    unfold Chan.full, Chan.len in Hf. apply Nat.leb_le in Hf. split; [|lia].
    intros Hl'. destruct (Hsurv c Hl') as [[b Hb] _]. congruence.
  - destruct Hin as [Hc1 Hs1].
    unfold Chan.full, Chan.len in Hf. apply Nat.leb_gt in Hf.
    destruct (IH w1 (enqueued [m] ch)) as (w' & tr & Hrun & Hiff); try done.
    + unfold live. by rewrite Hc1.
    + simpl. rewrite length_app. simpl. lia.
    + rewrite Hrun. eexists _, _. split; [reflexivity|]. rewrite Hiff.
      simpl. rewrite length_app. simpl. lia.
Qed.

Lemma one_client_inv : hub_inv one_client.
Proof.
  intros c [b Hb]. unfold one_client in *. simpl in *.
  destruct (decide (c = 1%positive)) as [->|Hne].
  - exists (Chan.make sendBuffer). simpl. by rewrite lookup_singleton_eq.
  - by rewrite lookup_singleton_ne in Hb.
Qed.

Lemma survives_exactly_capacity_witness :
  (∃ w' tr, run (map Broadcast (repeat [Byte.x21] 256)) one_client = Ok (w', tr)
     ∧ live w' 1)
  ∧ (∃ w' tr, run (map Broadcast (repeat [Byte.x21] 257)) one_client = Ok (w', tr)
     ∧ ¬ live w' 1).
Proof.
  split.
  - destruct (survives_exactly_capacity (repeat [Byte.x21] 256) one_client 1
                (Chan.make sendBuffer) one_client_inv)
      as (w' & tr & Hrun & Hiff).
    + by exists true.
    + reflexivity.
    + simpl. lia.
    + exists w', tr. split; [done|]. apply Hiff. rewrite repeat_length. unfold sendBuffer. simpl. lia.
  - destruct (survives_exactly_capacity (repeat [Byte.x21] 257) one_client 1
                (Chan.make sendBuffer) one_client_inv)
      as (w' & tr & Hrun & Hiff).
    + by exists true.
    + reflexivity.
    + simpl. lia.
    + exists w', tr. split; [done|]. intros Hl. apply Hiff in Hl.
      rewrite repeat_length in Hl. unfold sendBuffer in Hl. simpl in Hl. lia.
Defined.

(** ** A new connection *)

(** X13: a failed upgrade leaves everything as it was and asks for no
    registration.  A successful upgrade followed by the coordinator's turn
    on the register request adds exactly one client: one that was neither
    in the live set nor in the store, now live with an empty open queue of
    256 slots; every other client and queue is as before. *)
Theorem connect_adds_one_entry (w : World) :
  hub_inv w →
  serveWs false w = (w, [LogLine], None)
  ∧ ∃ w0 c w' e,
      serveWs true w = (w0, [SendRegister c], Some c)
      ∧ hub_step (Register c) w0 = Ok (w', e)
      ∧ ¬ live w c ∧ send w !! c = None
      ∧ live w' c ∧ send w' !! c = Some (Chan.make 256)
      ∧ size (clients w') = S (size (clients w))
      ∧ ∀ c', c' ≠ c →
          clients w' !! c' = clients w !! c' ∧ send w' !! c' = send w !! c'.
Proof.
  intros Hinv. split; [done|].
  set (c := fresh (dom (send w))).
  assert (Hfresh : send w !! c = None) by apply not_elem_of_dom, is_fresh.
  assert (Hn : ¬ live w c).
  { intros Hl. destruct (Hinv c Hl) as (ch & Hch & _). congruence. }
  assert (Hnone : clients w !! c = None).
  { destruct (clients w !! c) as [b|] eqn:Hb; [|done]. destruct Hn. by exists b. }
  eexists _, c, _, _. split; [reflexivity|]. split; [reflexivity|]. simpl.
  split; [done|]. split; [done|]. split; [|split; [|split]].
  - exists true. simpl. by rewrite lookup_insert_eq.
  - fold c. by rewrite lookup_insert_eq.
  - by apply map_size_insert_None.
  - intros c' Hne. fold c. by rewrite !lookup_insert_ne.
Qed.

Lemma connect_adds_one_entry_witness :
  ∃ w0 c w' e,
    serveWs true two_clients = (w0, [SendRegister c], Some c)
    ∧ hub_step (Register c) w0 = Ok (w', e)
    ∧ size (clients w') = 3%nat.
Proof.
  destruct (connect_adds_one_entry two_clients two_clients_inv)
    as (_ & w0 & c & w' & e & Hs & Hstep & _ & _ & _ & _ & Hsize & _).
  exists w0, c, w', e. split; [done|]. split; [done|]. rewrite Hsize. reflexivity.
Defined.

(** ** The values of the map *)

Lemma fan_out_clients_sub m ks w w' e c b :
  fan_out m ks w = Ok (w', e) → clients w' !! c = Some b → clients w !! c = Some b.
Proof.
  revert w w' e. induction ks as [|k ks IH]; intros w w' e Hrun Hc; simpl in Hrun.
  { by simplify_eq. }
  destruct (clients w !! k); [|by eapply IH].
  destruct (fan_out_one m k w) as [[w1 e1]|] eqn:H1; [|done].
  destruct (fan_out m ks w1) as [[w2 e2]|] eqn:H2; [|done]. simplify_eq.
  specialize (IH _ _ _ H2 Hc).
  destruct (fan_out_one_clients _ _ _ _ _ H1) as [[Heq _]|[Heq _]]; rewrite Heq in IH.
  - done.
  - by apply lookup_delete_Some in IH as [_ ?].
Qed.

Lemma run_values_true evs w w' tr :
  run evs w = Ok (w', tr) →
  (∀ c b, clients w !! c = Some b → b = true) →
  ∀ c b, clients w' !! c = Some b → b = true.
Proof.
  revert w tr. induction evs as [|ev evs IH]; intros w tr Hrun Hw; simpl in Hrun.
  { by simplify_eq. }
  destruct (hub_step ev w) as [[w1 e]|] eqn:Hstep; [|done].
  destruct (run evs w1) as [[w2 tr']|] eqn:Hrun'; [|done]. simplify_eq.
  apply (IH _ _ Hrun'). intros c b Hc. destruct ev as [k|k|m]; simpl in Hstep.
  - unfold hub_register in Hstep. simplify_eq. simpl in Hc.
    destruct (decide (c = k)) as [->|Hne].
    + rewrite lookup_insert_eq in Hc. by simplify_eq.
    + rewrite lookup_insert_ne in Hc by done. by eapply Hw.
  - unfold hub_unregister in Hstep. destruct (clients w !! k).
    + destruct (send w !! k) as [ch|]; [|done]. destruct (Chan.close ch); [|done].
      simplify_eq. simpl in Hc. apply lookup_delete_Some in Hc as [_ Hc]. by eapply Hw.
    + simplify_eq. by eapply Hw.
  - eapply Hw, fan_out_clients_sub; [exact Hstep|exact Hc].
Qed.

(** X15: the coordinator only ever stores true in its map: in every state
    it reaches from newHub every entry holds true, so a register request
    for a client that is already live leaves the whole state exactly as it
    was. *)
Theorem reachable_entries_true (evs : list HubEvent) (chans : gmap positive Chan.t)
    (w : World) (tr : list (HubEvent * list Effect)) :
  run evs (newHub chans) = Ok (w, tr) →
  (∀ c b, clients w !! c = Some b → b = true)
  ∧ (∀ c, live w c → ∃ e, hub_step (Register c) w = Ok (w, e)).
Proof.
  intros Hrun.
  assert (Htrue : ∀ c b, clients w !! c = Some b → b = true).
  { apply (run_values_true _ _ _ _ Hrun). intros c b H. simpl in H.
    by rewrite lookup_empty in H. }
  split; [done|]. intros c [b Hb]. rewrite (Htrue c b Hb) in Hb.
  eexists. simpl. unfold hub_register. rewrite (insert_id _ _ _ Hb).
  by destruct w.
Qed.

Lemma reachable_entries_true_witness :
  run lobby (newHub two_fresh_queues) = Ok (lobby_end.1, lobby_end.2)
  ∧ ∀ c b, clients lobby_end.1 !! c = Some b → b = true.
Proof.
  assert (Hrun : run lobby (newHub two_fresh_queues) = Ok (lobby_end.1, lobby_end.2))
    by (vm_compute; reflexivity).
  split; [exact Hrun|].
  exact (proj1 (reachable_entries_true lobby two_fresh_queues _ _ Hrun)).
Defined.

(** ** The entries of the program *)




(** * Further properties of the Reader *)

Lemma first_failure inc :
  Forall (λ i, read_fails i = false) inc
  ∨ ∃ pre bad rest, inc = pre ++ bad :: rest
      ∧ Forall (λ i, read_fails i = false) pre ∧ read_fails bad = true.
Proof.
  induction inc as [|i inc IH]; [by left|].
  destruct (read_fails i) eqn:Hi.
  - right. by exists [], i, inc.
  - destruct IH as [Hall|(pre & bad & rest & -> & Hpre & Hbad)].
    + left. by constructor.
    + right. exists (i :: pre), bad, rest. split; [done|]. split; [|done]. by constructor.
Qed.

Lemma readPump_clean c now0 inc :
  Forall (λ i, read_fails i = false) inc →
  readPump c now0 inc
  = ([SetReadLimit c readLimit; SetReadDeadline c (now0 + pongWait); SetPongHandler c]
       ++ flat_map (forwarded c) inc, Waiting).
Proof.
  intros Hall. unfold readPump.
  pose proof (read_loop_forward c inc [] Hall) as H. rewrite app_nil_r in H.
  rewrite H. simpl. by rewrite !app_nil_r.
Qed.

Lemma readPump_failing c now0 pre bad rest :
  Forall (λ i, read_fails i = false) pre → read_fails bad = true →
  readPump c now0 (pre ++ bad :: rest)
  = ([SetReadLimit c readLimit; SetReadDeadline c (now0 + pongWait); SetPongHandler c]
       ++ flat_map (forwarded c) pre ++ diagnostics bad
       ++ [SendUnregister c; ConnClose c], Returned).
Proof.
  intros Hpre Hbad. unfold readPump.
  rewrite (read_loop_forward c pre _ Hpre), (read_loop_fail c bad rest Hbad).
  simpl. by rewrite <- app_assoc.
Qed.

Lemma elem_of_forwarded c inc e :
  e ∈ flat_map (forwarded c) inc →
  (∃ t, e = SetReadDeadline c t) ∨ (∃ p, e = SendBroadcast p).
Proof.
  intros H. apply list_elem_of_In, in_flat_map in H as (i & _ & Hi).
  apply list_elem_of_In in Hi. destruct i as [now|p|err]; simpl in Hi.
  - apply list_elem_of_singleton in Hi. eauto.
  - apply list_elem_of_singleton in Hi. eauto.
  - by apply elem_of_nil in Hi.
Qed.

Lemma elem_of_diagnostics bad e : e ∈ diagnostics bad → e = LogLine.
Proof.
  destruct bad as [now|p|err]; simpl; try by intros ?%elem_of_nil.
  destruct (IsUnexpectedCloseError _ _); [|by intros ?%elem_of_nil].
  by intros ?%list_elem_of_singleton.
Qed.

Lemma clean_no_failure inc :
  Forall (λ i, read_fails i = false) inc → ¬ Exists (λ i, read_fails i = true) inc.
Proof.
  intros Hall Hex. apply Exists_exists in Hex as (i & Hi & Hf).
  rewrite Forall_forall in Hall. specialize (Hall i Hi). congruence.
Qed.

(** X3: the Reader returns exactly when a read fails: it sends its
    unregister request, and closes its connection, if and only if some
    incoming item makes ReadMessage fail; until then it keeps waiting for
    input and does neither. *)
Theorem reader_returns_iff_failure (c : Client) (now0 : Z) (inc : list Incoming) :
  ((readPump c now0 inc).2 = Returned ↔ Exists (λ i, read_fails i = true) inc)
  ∧ (SendUnregister c ∈ (readPump c now0 inc).1
     ↔ Exists (λ i, read_fails i = true) inc)
  ∧ (ConnClose c ∈ (readPump c now0 inc).1
     ↔ Exists (λ i, read_fails i = true) inc).
Proof.
  destruct (first_failure inc) as [Hall|(pre & bad & rest & -> & Hpre & Hbad)].
  - pose proof (clean_no_failure inc Hall) as Hno.
    rewrite (readPump_clean c now0 inc Hall). simpl.
    assert (Hnot : ∀ e, e = SendUnregister c ∨ e = ConnClose c →
              ¬ e ∈ SetReadLimit c readLimit :: SetReadDeadline c (now0 + pongWait)
                    :: SetPongHandler c :: flat_map (forwarded c) inc).
    { intros e He Hin. rewrite !elem_of_cons in Hin.
      destruct Hin as [->|[->|[->|Hin]]]; try (by destruct He).
      apply elem_of_forwarded in Hin as [[t ->]|[p ->]]; by destruct He. }
    split; [|split]; (split; [|done]); intros H; exfalso.
    + discriminate H.
    + by apply (Hnot (SendUnregister c)); [left|].
    + by apply (Hnot (ConnClose c)); [right|].
  - assert (Hex : Exists (λ i, read_fails i = true) (pre ++ bad :: rest)).
    { apply Exists_app. right. by left. }
    rewrite (readPump_failing c now0 pre bad rest Hpre Hbad). simpl.
    split; [done|]. split; (split; [done|]); intros _;
      do 3 right; rewrite !elem_of_app; right; right;
      rewrite !elem_of_cons; tauto.
Qed.

(** X4: the Reader never operates on the send queue of a client: none of
    its effects closes, sends on or receives from the send channel of a
    client, its own included.  The queues belong to the coordinator, which closes
    and fills them, and to the Writers, which empty them. *)
Theorem reader_never_touches_queues (c : Client) (now0 : Z) (inc : list Incoming) :
  Forall (λ e, queue_operation e = false) (readPump c now0 inc).1.
Proof.
  apply Forall_forall. intros e He.
  destruct (first_failure inc) as [Hall|(pre & bad & rest & -> & Hpre & Hbad)].
  - rewrite (readPump_clean c now0 inc Hall) in He. simpl in He.
    rewrite !elem_of_cons in He. destruct He as [->|[->|[->|He]]]; try done.
    by apply elem_of_forwarded in He as [[t ->]|[p ->]].
  - rewrite (readPump_failing c now0 pre bad rest Hpre Hbad) in He. simpl in He.
    rewrite !elem_of_cons, !elem_of_app, !elem_of_cons, elem_of_nil in He.
    destruct He as [->|[->|[->|[He|[He|[->|[->|[]]]]]]]]; try done.
    + by apply elem_of_forwarded in He as [[t ->]|[p ->]].
    + by rewrite (elem_of_diagnostics _ _ He).
Qed.

(** X5: the Reader logs a read failure exactly when the error is a close
    error whose code is neither 1001 (going away) nor 1006 (abnormal
    closure); a timeout, a protocol error and a message over the read limit
    end the Reader without a log line. *)
Theorem reader_logs_unexpected_close (c : Client) (now0 : Z) (pre : list Incoming)
    (bad : Incoming) (rest : list Incoming) :
  Forall (λ i, read_fails i = false) pre → read_fails bad = true →
  LogLine ∈ (readPump c now0 (pre ++ bad :: rest)).1
  ↔ ∃ code, bad = InError (ErrClosed code) ∧ code ≠ 1001 ∧ code ≠ 1006.
Proof.
  intros Hpre Hbad. rewrite (readPump_failing c now0 pre bad rest Hpre Hbad). simpl.
  assert (Hdiag : LogLine ∈ diagnostics bad
                  ↔ ∃ code, bad = InError (ErrClosed code) ∧ code ≠ 1001 ∧ code ≠ 1006).
  { destruct bad as [now|p|err]; simpl.
    - split; [by intros ?%elem_of_nil|]. by intros (code & ? & _).
    - split; [by intros ?%elem_of_nil|]. by intros (code & ? & _).
    - destruct err as [| |code| |]; simpl;
        try (split; [by intros ?%elem_of_nil|]; by intros (code & ? & _)).
      unfold CloseGoingAway, CloseAbnormalClosure.
      destruct (Z.eqb_spec code 1001) as [->|H1]; simpl.
      { split; [by intros ?%elem_of_nil|]. intros (code & [= <-] & ? & _). done. }
      destruct (Z.eqb_spec code 1006) as [->|H2]; simpl.
      { split; [by intros ?%elem_of_nil|]. intros (code & [= <-] & _ & ?). done. }
      split; [|intros _; by left]. intros _. by exists code. }
  rewrite <- Hdiag. rewrite !elem_of_cons, !elem_of_app, !elem_of_cons, elem_of_nil.
  split; [|tauto].
  intros [?|[?|[?|[He|[He|[?|[?|[]]]]]]]]; try done.
  by apply elem_of_forwarded in He as [[t ?]|[p ?]].
Qed.

Lemma reader_logs_unexpected_close_witness :
  LogLine ∈ (readPump 7 100 ([InData [Byte.x68]] ++ InError (ErrClosed 1002) :: [])).1
  ∧ ¬ LogLine ∈ (readPump 7 100 ([InData [Byte.x68]] ++ InError ErrTimeout :: [])).1.
Proof.
  split.
  - apply (reader_logs_unexpected_close 7 100 [InData [Byte.x68]]
             (InError (ErrClosed 1002)) []).
    + repeat constructor.
    + reflexivity.
    + exists 1002. split; [reflexivity|]. split; discriminate.
  - intros H.
    apply (reader_logs_unexpected_close 7 100 [InData [Byte.x68]]
             (InError ErrTimeout) []) in H.
    + destruct H as (code & Heq & _). discriminate Heq.
    + repeat constructor.
    + reflexivity.
Defined.

Lemma sent_messages_app l1 l2 :
  sent_messages (l1 ++ l2) = sent_messages l1 ++ sent_messages l2.
Proof.
  induction l1 as [|e l1 IH]; [done|]. destruct e; simpl; by rewrite ?IH.
Qed.

Lemma read_loop_sent c inc : sent_messages (read_loop c inc).1 = accepted inc.
Proof.
  induction inc as [|i inc IH]; [done|]. destruct i as [now|p|err]; simpl.
  - destruct (read_loop c inc) as [e st]. simpl in *. exact IH.
  - change (0 <? readLimit) with true. unfold readLimit. simpl.
    destruct (512 <? Z.of_nat (length p)); simpl; [done|].
    destruct (read_loop c inc) as [e st]. simpl in *. by rewrite IH.
  - by destruct (IsUnexpectedCloseError _ _).
Qed.

(** X6: the Reader forwards to the coordinator exactly the data messages
    that arrive before the first failing read, unchanged, each once and in
    the order of arrival; what arrives after the failure is not
    forwarded. *)
Theorem reader_forwards_in_order (c : Client) (now0 : Z) (inc : list Incoming) :
  sent_messages (readPump c now0 inc).1 = accepted inc.
Proof.
  unfold readPump. pose proof (read_loop_sent c inc) as H.
  destruct (read_loop c inc) as [body st]. simpl in *.
  rewrite sent_messages_app, H. destruct st; simpl; by rewrite app_nil_r.
Qed.

(** * Further properties of the Writer *)

Lemma batch_no_close_message c now m rest :
  Forall (λ x, is_close_message x = false) (batch c now m rest).
Proof.
  unfold batch. repeat (constructor; [done|]). apply Forall_app. split.
  - apply Forall_flat_map, Forall_forall. intros x _. by repeat constructor.
  - by repeat constructor.
Qed.

Lemma write_turn_close c wk ch :
  Forall (λ x, is_close_message x = false) (write_turn c wk ch).1.1
  ∨ ((write_turn c wk ch).2 = Return
     ∧ Chan.closed ch = true
     ∧ Chan.buf (write_turn c wk ch).1.2 = []
     ∧ ∃ t, (write_turn c wk ch).1.1
            = [SetWriteDeadline c t; WriteMessage c CloseMessage []]).
Proof.
  destruct wk as [now nw cl|now ok].
  - destruct ch as [[|m rest] n closed].
    + unfold write_turn, Chan.recv. simpl. destruct closed; simpl.
      * right. repeat split; eauto.
      * left. constructor.
    + destruct nw.
      * rewrite write_turn_batch. left. apply batch_no_close_message.
      * unfold write_turn, Chan.recv. simpl. left. by repeat constructor.
  - left. simpl. by repeat constructor.
Qed.

Lemma write_loop_close c wakes ch :
  Forall (λ x, is_close_message x = false) (write_loop c wakes ch).1.1
  ∨ ((write_loop c wakes ch).2 = Returned
     ∧ Chan.closed ch = true
     ∧ Chan.buf (write_loop c wakes ch).1.2 = []
     ∧ ∃ body t, (write_loop c wakes ch).1.1
                 = body ++ [SetWriteDeadline c t; WriteMessage c CloseMessage []]
         ∧ Forall (λ x, is_close_message x = false) body).
Proof.
  revert ch. induction wakes as [|wk wakes IH]; intros ch; simpl; [left; constructor|].
  pose proof (write_turn_close c wk ch) as Hc.
  pose proof (write_turn_cases c wk ch) as Ht.
  destruct (write_turn c wk ch) as [[e ch1] t]. simpl in Hc.
  destruct Ht as (Hns & _ & _ & Hcl). destruct t; [| |done].
  - destruct Hc as [He|(Habs & _)]; [|done].
    specialize (IH ch1). destruct (write_loop c wakes ch1) as [[e' ch2] st]. simpl in *.
    destruct IH as [He'|(-> & Hclosed & Hbuf & body & t & -> & Hbody)].
    + left. by apply Forall_app.
    + right. split; [done|]. split; [congruence|]. split; [done|].
      exists (e ++ body), t. split; [by rewrite app_assoc|]. by apply Forall_app.
  - simpl. destruct Hc as [He|(_ & Hclosed & Hbuf & t & ->)]; [by left|].
    right. repeat split; try done. exists [], t. split; [done|constructor].
Qed.

(** X12: the Writer sends the close notification only for a queue that the
    coordinator has closed and that the Writer has emptied; it sends it at
    most once, as its last write, and then stops its ticker and closes the
    connection. *)
Theorem close_notification_last (c : Client) (wakes : list Wake) (ch : Chan.t) :
  Exists (λ x, is_close_message x = true) (writePump c wakes ch).1.1 →
  (writePump c wakes ch).2 = Returned
  ∧ Chan.closed ch = true
  ∧ Chan.buf (writePump c wakes ch).1.2 = []
  ∧ ∃ body t,
      (writePump c wakes ch).1.1
      = body ++ [SetWriteDeadline c t; WriteMessage c CloseMessage [];
                 TickerStop c; ConnClose c]
      ∧ Forall (λ x, is_close_message x = false) body.
Proof.
  unfold writePump. pose proof (write_loop_close c wakes ch) as H.
  destruct (write_loop c wakes ch) as [[e ch'] st]. simpl in *. intros Hex.
  destruct H as [He|(-> & Hclosed & Hbuf & body & t & -> & Hbody)].
  - exfalso. apply Exists_exists in Hex as (x & Hx & Hclose).
    rewrite elem_of_cons, elem_of_app in Hx. destruct Hx as [->|[Hx|Hx]]; [done| |].
    + rewrite Forall_forall in He. specialize (He x Hx). congruence.
    + destruct st; rewrite ?elem_of_cons, ?elem_of_nil in Hx;
        repeat (destruct Hx as [Hx|Hx]; subst; try done); done.
  - split; [done|]. split; [done|]. split; [done|].
    exists (NewTicker c pingPeriod :: body), t. split.
    + simpl. by rewrite <- app_assoc.
    + by constructor.
Qed.

Lemma close_notification_last_witness :
  (writePump 7 [WakeTick 5 true; WakeSend 9 true true] closed_empty_queue).2 = Returned
  ∧ ∃ body t,
      (writePump 7 [WakeTick 5 true; WakeSend 9 true true] closed_empty_queue).1.1
      = body ++ [SetWriteDeadline 7 t; WriteMessage 7 CloseMessage [];
                 TickerStop 7; ConnClose 7]
      ∧ Forall (λ x, is_close_message x = false) body.
Proof.
  destruct (close_notification_last 7 [WakeTick 5 true; WakeSend 9 true true]
              closed_empty_queue) as (Hst & _ & _ & Hshape).
  - simpl. do 4 right. by left.
  - by split.
Defined.

(** X14: inside a turn the Writer never waits: the coalescing loop receives
    only as many messages as the queue holds.  So a Writer that has not
    returned is back at its select, and its runs compose: running it on more
    wake-ups continues from the queue it left, and a Writer that has
    returned does nothing more. *)
Theorem writer_runs_compose (c : Client) (wakes more : list Wake) (ch : Chan.t) :
  (∀ wk, (write_turn c wk ch).2 ≠ Stuck)
  ∧ write_loop c (wakes ++ more) ch
    = match write_loop c wakes ch with
      | (e, ch1, Waiting) =>
          let '(e2, ch2, st) := write_loop c more ch1 in (e ++ e2, ch2, st)
      | (e, ch1, Returned) => (e, ch1, Returned)
      end.
Proof.
  split.
  - intros wk. pose proof (write_turn_cases c wk ch) as H.
    destruct (write_turn c wk ch) as [[e ch'] t]. by destruct H.
  - revert ch. induction wakes as [|wk wakes IH]; intros ch; simpl.
    { by destruct (write_loop c more ch) as [[? ?] ?]. }
    pose proof (write_turn_cases c wk ch) as H.
    destruct (write_turn c wk ch) as [[e ch1] t]. destruct H as (Hns & _).
    destruct t; [| done | done]. rewrite IH.
    destruct (write_loop c wakes ch1) as [[e' ch2] [|]]; [done|].
    destruct (write_loop c more ch2) as [[e2 ch3] st]. by rewrite app_assoc.
Qed.

(** * The coordinator and the Writer together *)

(** X10: messages broadcast while a live client's queue is empty and has
    room for them all reach that client's connection in the order of the
    broadcasts: the Writer's next write on a healthy connection is the
    first message followed by the others, each after a newline, and it
    leaves the queue empty. *)
Theorem broadcasts_reach_the_wire (w : World) (c : Client) (ch : Chan.t)
    (m : msg) (ms : list msg) (now : Z) (closeOk : bool) :
  hub_inv w → live w c → send w !! c = Some ch → Chan.buf ch = [] →
  (length (m :: ms) ≤ Chan.cap ch)%nat →
  ∃ w' tr ch', run (map Broadcast (m :: ms)) w = Ok (w', tr)
    ∧ send w' !! c = Some ch'
    ∧ written (write_turn c (WakeSend now true closeOk) ch').1.1
      = m ++ flat_map (λ x, newline ++ x) ms
    ∧ Chan.buf (write_turn c (WakeSend now true closeOk) ch').1.2 = [].
Proof.
  intros Hinv Hl Hs Hbuf Hlen.
  destruct (run_broadcasts (m :: ms) w Hinv) as (w' & tr & Hrun & _ & _ & Hfit).
  destruct (Hfit c ch Hl Hs) as [_ Hs']; [rewrite Hbuf; simpl in *; lia|].
  exists w', tr, (enqueued (m :: ms) ch). split; [done|]. split; [done|].
  replace (enqueued (m :: ms) ch)
    with {| Chan.buf := m :: ms; Chan.cap := Chan.cap ch; Chan.closed := false |}
    by (unfold enqueued; by rewrite Hbuf).
  rewrite write_turn_batch. split; [|done]. apply written_batch.
Qed.

Lemma broadcasts_reach_the_wire_witness :
  ∃ w' tr ch',
    run (map Broadcast [[Byte.x68]; [Byte.x69]; [Byte.x21]]) one_client = Ok (w', tr)
    ∧ send w' !! 1%positive = Some ch'
    ∧ written (write_turn 1 (WakeSend 0 true true) ch').1.1
      = [Byte.x68; Byte.x0a; Byte.x69; Byte.x0a; Byte.x21].
Proof.
  destruct (broadcasts_reach_the_wire one_client 1 (Chan.make sendBuffer)
              [Byte.x68] [[Byte.x69]; [Byte.x21]] 0 true one_client_inv)
    as (w' & tr & ch' & Hrun & Hs & Hw & _).
  - by exists true.
  - reflexivity.
  - reflexivity.
  - unfold sendBuffer. simpl. lia.
  - exists w', tr, ch'. split; [done|]. split; [done|]. exact Hw.
Defined.

(** * Deadlines *)

Lemma read_deadline_app l1 l2 :
  read_deadline (l1 ++ l2)
  = fold_left (λ acc e, match e with SetReadDeadline _ t => Some t | _ => acc end)
      l2 (read_deadline l1).
Proof. unfold read_deadline. apply fold_left_app. Qed.

Lemma fold_forwarded c inc t :
  fold_left (λ acc e, match e with SetReadDeadline _ t => Some t | _ => acc end)
    (flat_map (forwarded c) inc) (Some (t + pongWait))
  = Some (last_pong t inc + pongWait).
Proof.
  revert t. induction inc as [|i inc IH]; intros t; [done|].
  simpl. rewrite fold_left_app. destruct i as [now|p|err]; simpl; apply IH.
Qed.

(** X17: while no read fails, the read deadline in force is 60 s after the
    last pong, or 60 s after the start of the Reader when no pong has come:
    data messages do not extend it.  A failing read does not change it. *)
Theorem read_deadline_follows_pongs (c : Client) (now0 : Z) (pre : list Incoming) :
  Forall (λ i, read_fails i = false) pre →
  read_deadline (readPump c now0 pre).1 = Some (last_pong now0 pre + 60 * Second)
  ∧ ∀ bad rest, read_fails bad = true →
      read_deadline (readPump c now0 (pre ++ bad :: rest)).1
      = Some (last_pong now0 pre + 60 * Second).
Proof.
  intros Hpre.
  assert (Hfold : read_deadline
                    ([SetReadLimit c readLimit; SetReadDeadline c (now0 + pongWait);
                      SetPongHandler c] ++ flat_map (forwarded c) pre)
                  = Some (last_pong now0 pre + pongWait)).
  { rewrite read_deadline_app. apply fold_forwarded. }
  split.
  - by rewrite (readPump_clean c now0 pre Hpre).
  - intros bad rest Hbad. rewrite (readPump_failing c now0 pre bad rest Hpre Hbad).
    cbn [fst]. rewrite !app_assoc, read_deadline_app, read_deadline_app, Hfold.
    destruct bad as [now|p|err]; simpl; try done.
    by destruct (IsUnexpectedCloseError _ _).
Qed.

Lemma read_deadline_follows_pongs_witness :
  read_deadline (readPump 7 100 [InPong 130; InData [Byte.x68]; InPong 170;
                                 InData [Byte.x69]]).1
  = Some (170 + 60 * Second).
Proof.
  apply (read_deadline_follows_pongs 7 100
           [InPong 130; InData [Byte.x68]; InPong 170; InData [Byte.x69]]).
  repeat constructor.
Defined.

Lemma writes_under_deadline_none c l :
  Forall (λ e, starts_write e = false) l → writes_under_deadline c l.
Proof.
  intros Hall l1 e l2 -> He. apply Forall_app in Hall as [_ Hall].
  apply Forall_cons in Hall as [Hall _]. congruence.
Qed.

Lemma writes_under_deadline_app c l l' :
  writes_under_deadline c l → writes_under_deadline c l' →
  writes_under_deadline c (l ++ l').
Proof.
  intros Hl Hl' l1 e l2 Heq He.
  apply app_eq_app in Heq as [k [[-> Hk]|[-> Hk]]].
  - destruct k as [|x k]; simpl in Hk.
    + destruct (Hl' [] e l2 (eq_sym Hk) He) as (l0 & t & Habs). by destruct l0.
    + injection Hk as <- ->. by apply (Hl l1 e k).
  - destruct (Hl' k e l2 Hk He) as (l0 & t & ->).
    exists (l ++ l0), t. by rewrite app_assoc.
Qed.

Lemma writes_under_deadline_pair c t e :
  writes_under_deadline c [SetWriteDeadline c t; e].
Proof.
  intros l1 x l2 Heq Hx. destruct l1 as [|a [|b l1]]; simplify_eq/=.
  - by exists [], t.
  - by destruct l1.
Qed.

Lemma write_turn_under_deadline c wk ch :
  writes_under_deadline c (write_turn c wk ch).1.1.
Proof.
  destruct wk as [now nw cl|now ok].
  - destruct ch as [[|m rest] n closed].
    + unfold write_turn, Chan.recv. simpl. destruct closed; simpl.
      * apply writes_under_deadline_pair.
      * apply writes_under_deadline_none. constructor.
    + assert (Hpre : writes_under_deadline c
                [ChanRecv c m; SetWriteDeadline c (now + writeWait);
                 NextWriter c TextMessage]).
      { apply (writes_under_deadline_app c [ChanRecv c m]).
        - apply writes_under_deadline_none. by repeat constructor.
        - apply writes_under_deadline_pair. }
      destruct nw.
      * rewrite write_turn_batch. unfold batch. cbn [fst].
        change ([ChanRecv c m; SetWriteDeadline c (now + 10 * Second);
                 NextWriter c TextMessage; WriterWrite c m] ++ ?l)
          with ([ChanRecv c m; SetWriteDeadline c (now + writeWait);
                 NextWriter c TextMessage] ++ WriterWrite c m :: l).
        apply writes_under_deadline_app; [done|].
        apply writes_under_deadline_none. constructor; [done|].
        apply Forall_app. split; [|by repeat constructor].
        apply Forall_flat_map, Forall_forall. intros x _. by repeat constructor.
      * unfold write_turn, Chan.recv. simpl. exact Hpre.
  - simpl. apply writes_under_deadline_pair.
Qed.

Lemma write_loop_under_deadline c wakes ch :
  writes_under_deadline c (write_loop c wakes ch).1.1.
Proof.
  revert ch. induction wakes as [|wk wakes IH]; intros ch; simpl.
  { apply writes_under_deadline_none. constructor. }
  pose proof (write_turn_under_deadline c wk ch) as Ht.
  destruct (write_turn c wk ch) as [[e ch1] t]. simpl in Ht.
  destruct t; simpl; [|done|done].
  specialize (IH ch1). destruct (write_loop c wakes ch1) as [[e' ch2] st].
  simpl in *. by apply writes_under_deadline_app.
Qed.

(** X18: every write the Writer starts on its connection, a data message,
    a ping or the close message, comes right after it has set the write
    deadline of that connection: no write starts under a deadline left from
    an earlier turn. *)
Theorem every_write_under_deadline (c : Client) (wakes : list Wake) (ch : Chan.t)
    (l1 l2 : list Effect) (e : Effect) :
  (writePump c wakes ch).1.1 = l1 ++ e :: l2 → starts_write e = true →
  ∃ l0 t, l1 = l0 ++ [SetWriteDeadline c t].
Proof.
  assert (H : writes_under_deadline c (writePump c wakes ch).1.1).
  { unfold writePump. pose proof (write_loop_under_deadline c wakes ch) as Hl.
    destruct (write_loop c wakes ch) as [[body ch'] st]. simpl in *.
    apply (writes_under_deadline_app c [NewTicker c pingPeriod]).
    - apply writes_under_deadline_none. by repeat constructor.
    - apply writes_under_deadline_app; [done|].
      apply writes_under_deadline_none. destruct st; by repeat constructor. }
  apply H.
Qed.

Lemma every_write_under_deadline_witness :
  ∃ l0 t, [NewTicker 7 pingPeriod; SetWriteDeadline 7 (5 + writeWait)]
          = l0 ++ [SetWriteDeadline 7 t].
Proof.
  apply (every_write_under_deadline 7 [WakeTick 5 false] closed_empty_queue
           [NewTicker 7 pingPeriod; SetWriteDeadline 7 (5 + writeWait)]
           [TickerStop 7; ConnClose 7] (WriteMessage 7 PingMessage [])).
  - reflexivity.
  - reflexivity.
Defined.
